(** * textChunker.js: chunkText and findRelevantChunks

    A shallow embedding of [src/backend/utils/textChunker.js] and the
    properties of its two exported functions.

    JavaScript strings are sequences of UTF-16 code units; a code unit is
    modelled as an [N] and a string as a [list N].  Numbers that the code
    uses as word counts, indices and window bounds are integers ([Z]).
    A loop whose termination depends on its arguments takes fuel and
    returns [None] when the fuel runs out. *)

From Stdlib Require Import List NArith ZArith Bool Lia Ascii Sorted.
From Stdlib Require Import Permutation.
From Stdlib Require String.
Import ListNotations.
Import String.StringSyntax.
Delimit Scope string_scope with string.

Set Implicit Arguments.

(** ** Strings *)

Module JS.

Definition jsstring := list N.

Definition LF : N := 10.
Definition CR : N := 13.
Definition SP : N := 32.

(** The white space of [String.prototype.trim] and of the regular
    expression class [\s]: WhiteSpace and LineTerminator code points. *)
Definition isWhiteSpace (c : N) : bool :=
  ((9 <=? c) && (c <=? 13) || (c =? 32) || (c =? 160) || (c =? 5760)
   || (8192 <=? c) && (c <=? 8202) || (c =? 8232) || (c =? 8233)
   || (c =? 8239) || (c =? 8287) || (c =? 12288) || (c =? 65279))%N.

Definition isLF (c : N) : bool := (c =? LF)%N.

Arguments isWhiteSpace : simpl never.

(** A string literal of the source, as code units (ASCII literals only). *)
Fixpoint lit (s : String.string) : jsstring :=
  match s with
  | String.EmptyString => []
  | String.String a s' => N_of_ascii a :: lit s'
  end.

Fixpoint eqb (s t : jsstring) : bool :=
  match s, t with
  | [], [] => true
  | c :: s', d :: t' => (c =? d)%N && eqb s' t'
  | _, _ => false
  end.

(** [s.startsWith(p)] *)
Fixpoint startsWith (p s : jsstring) : bool :=
  match p, s with
  | [], _ => true
  | c :: p', d :: s' => (c =? d)%N && startsWith p' s'
  | _ :: _, [] => false
  end.

(** [s.replace(/pat/g, rep)] for a pattern [pat] that is a non-empty
    sequence of literal characters: matches are found left to right and do
    not overlap.  [skip] counts the code units of the current match that
    are still to be consumed. *)
Fixpoint replaceAll_from (pat rep s : jsstring) (skip : nat) : jsstring :=
  match s with
  | [] => []
  | c :: t =>
      match skip with
      | S k => replaceAll_from pat rep t k
      | O =>
          if startsWith pat s
          then rep ++ replaceAll_from pat rep t (pred (length pat))
          else c :: replaceAll_from pat rep t 0
      end
  end.

Definition replaceAll (pat rep s : jsstring) : jsstring :=
  replaceAll_from pat rep s 0.

(** [s.replace(/\s+/g, " ")]: every maximal run of white space becomes
    one space.  [inRun] tells that the previous code unit was white space. *)
Fixpoint collapse_from (s : jsstring) (inRun : bool) : jsstring :=
  match s with
  | [] => []
  | c :: t =>
      if isWhiteSpace c
      then (if inRun then collapse_from t true else SP :: collapse_from t true)
      else c :: collapse_from t false
  end.

Definition collapseWhiteSpace (s : jsstring) : jsstring :=
  collapse_from s false.

Fixpoint trimStart (s : jsstring) : jsstring :=
  match s with
  | [] => []
  | c :: t => if isWhiteSpace c then trimStart t else s
  end.

Definition trimEnd (s : jsstring) : jsstring := rev (trimStart (rev s)).

Definition trim (s : jsstring) : jsstring := trimEnd (trimStart s).

(** [s.split(/c+/)] for a character class [sep]: the pieces between the
    maximal runs of separators, with an empty piece before a leading run
    and after a trailing one; the empty string gives one empty piece.
    [inRun] tells that the previous code unit was a separator. *)
Fixpoint split_from (sep : N -> bool) (s : jsstring) (inRun : bool)
  : list jsstring :=
  match s with
  | [] => [[]]
  | c :: t =>
      if sep c
      then (if inRun then split_from sep t true
            else [] :: split_from sep t true)
      else match split_from sep t false with
           | w :: ws => (c :: w) :: ws
           | [] => [[c]]
           end
  end.

Definition split (sep : N -> bool) (s : jsstring) : list jsstring :=
  split_from sep s false.

(** [a.join(sep)] *)
Fixpoint join (sep : jsstring) (a : list jsstring) : jsstring :=
  match a with
  | [] => []
  | [w] => w
  | w :: ws => w ++ sep ++ join sep ws
  end.

(** [a.slice(start, end)] with integer arguments: a negative argument
    counts from the end of the array, and both are clamped to the array. *)
Definition sliceIndex (len k : Z) : Z :=
  if (k <? 0)%Z then Z.max (len + k) 0 else Z.min k len.

Definition slice {A : Type} (a : list A) (start stop : Z) : list A :=
  let len := Z.of_nat (length a) in
  let k := sliceIndex len start in
  let final := sliceIndex len stop in
  firstn (Z.to_nat (final - k)) (skipn (Z.to_nat k) a).

(** [a.slice(start)] *)
Definition sliceFrom {A : Type} (a : list A) (start : Z) : list A :=
  slice a start (Z.of_nat (length a)).

End JS.

Import JS.

(** ** chunkText *)

Open Scope Z_scope.

Record Chunk : Type := mkChunk
  { content : jsstring;
    chunkIndex : Z;
    pageNumber : Z }.

(** The local variables of [chunkText] that its loops update. *)
Record ChunkerState : Type := mkState
  { chunks : list Chunk;
    currentChunk : list jsstring;
    currentWordCount : Z;
    nextIndex : Z }.

Definition len {A : Type} (a : list A) : Z := Z.of_nat (length a).

(** [chunks.push({content, chunkIndex: chunkIndex++, pageNumber: 0})] *)
Definition pushChunk (st : ChunkerState) (c : jsstring) : ChunkerState :=
  mkState (chunks st ++ [mkChunk c (nextIndex st) 0])
          (currentChunk st) (currentWordCount st) (nextIndex st + 1).

(** The sliding-window [for] loop of lines 38-50 and 90-98:
    [for (let i = 0; i < words.length; i += chunkSize - overlap)]. *)
Fixpoint windowLoop (fuel : nat) (words : list jsstring)
    (chunkSize overlap : Z) (i : Z) (st : ChunkerState)
  : option ChunkerState :=
  match fuel with
  | O => None
  | S fuel' =>
      if i <? len words then
        let chunkWords := slice words i (i + chunkSize) in
        let st' := pushChunk st (join [SP] chunkWords) in
        if i + chunkSize >=? len words then Some st'
        else windowLoop fuel' words chunkSize overlap
               (i + (chunkSize - overlap)) st'
      else Some st
  end.

(** Lines 27-35: emit the pending chunk, if any, and reset it. *)
Definition flushPending (st : ChunkerState) : ChunkerState :=
  if 0 <? len (currentChunk st) then
    let st' := pushChunk st (join [LF; LF] (currentChunk st)) in
    mkState (chunks st') [] 0 (nextIndex st')
  else st.

(** One iteration of [for (const paragraph of paragraphs)]. *)
Definition paragraphStep (fuel : nat) (chunkSize overlap : Z)
    (st : ChunkerState) (paragraph : jsstring) : option ChunkerState :=
  let paragraphWords := split isWhiteSpace (trim paragraph) in
  let paragraphWordCount := len paragraphWords in
  if paragraphWordCount >? chunkSize then
    windowLoop fuel paragraphWords chunkSize overlap 0 (flushPending st)
  else if (currentWordCount st + paragraphWordCount >? chunkSize)
          && (0 <? len (currentChunk st)) then
    let st' := pushChunk st (join [LF; LF] (currentChunk st)) in
    let prevChunkText := join [SP] (currentChunk st) in
    let prevWords := split isWhiteSpace prevChunkText in
    let overlapText :=
      join [SP] (sliceFrom prevWords (- Z.min overlap (len prevWords))) in
    Some (mkState (chunks st')
            [overlapText; trim paragraph]
            (len (split isWhiteSpace overlapText) + paragraphWordCount)
            (nextIndex st'))
  else
    Some (mkState (chunks st)
            (currentChunk st ++ [trim paragraph])
            (currentWordCount st + paragraphWordCount)
            (nextIndex st)).

Fixpoint paragraphLoop (fuel : nat) (chunkSize overlap : Z)
    (paragraphs : list jsstring) (st : ChunkerState)
  : option ChunkerState :=
  match paragraphs with
  | [] => Some st
  | p :: ps =>
      match paragraphStep fuel chunkSize overlap st p with
      | None => None
      | Some st' => paragraphLoop fuel chunkSize overlap ps st'
      end
  end.

(** Lines 6-11. *)
Definition cleanText (text : jsstring) : jsstring :=
  trim (replaceAll [SP; LF] [LF]
          (replaceAll [LF; SP] [LF]
             (collapseWhiteSpace (replaceAll [CR; LF] [LF] text)))).

(** Lines 13-15. *)
Definition splitParagraphs (cleanedText : jsstring) : list jsstring :=
  filter (fun p => 0 <? len (trim p)) (split isLF cleanedText).

(** Lines 80-86: the last pending chunk takes the current index, which is
    not incremented. *)
Definition finalFlush (st : ChunkerState) : ChunkerState :=
  if 0 <? len (currentChunk st) then
    mkState (chunks st ++ [mkChunk (join [LF; LF] (currentChunk st))
                             (nextIndex st) 0])
            (currentChunk st) (currentWordCount st) (nextIndex st)
  else st.

(** Lines 17-20. *)
Definition initialState : ChunkerState := mkState [] [] 0 0.

Definition isBlank (text : jsstring) : bool :=
  (len text =? 0) || (len (trim text) =? 0).

Definition chunkText (fuel : nat) (text : jsstring) (chunkSize overlap : Z)
  : option (list Chunk) :=
  if isBlank text then Some []
  else
    let cleanedText := cleanText text in
    let paragraphs := splitParagraphs cleanedText in
    match paragraphLoop fuel chunkSize overlap paragraphs initialState with
    | None => None
    | Some st =>
        let st := finalFlush st in
        if (len (chunks st) =? 0) && (0 <? len cleanedText) then
          match windowLoop fuel (split isWhiteSpace cleanedText)
                  chunkSize overlap 0 st with
          | None => None
          | Some st' => Some (chunks st')
          end
        else Some (chunks st)
    end.

Definition defaultChunkSize : Z := 500.
Definition defaultOverlap : Z := 50.

(** ** Regular expressions built from a query word

    [new RegExp(word, "gi")] parses [word] as a pattern.  The fragment of
    the pattern grammar embedded here has pattern characters, [.], the
    greedy quantifiers [*], [+] and [?], capturing groups and [|].  A
    pattern that uses anything else ([\ ^ $ [ ] { }], [(?], a lazy
    quantifier) is reported as [NotModelled], and nothing is stated about
    it. *)

Inductive Outcome (A : Type) : Type :=
| Returns (a : A)
| ThrowsSyntaxError
| NotModelled.

Arguments ThrowsSyntaxError {A}.
Arguments NotModelled {A}.

Module RegExp.

Inductive regex : Type :=
| Empty
| Char (c : N)
| Dot
| Seq (r1 r2 : regex)
| Alt (r1 r2 : regex)
| Star (r : regex)
| Plus (r : regex)
| Opt (r : regex)
| Group (r : regex).

Definition cLPAREN : N := 40.
Definition cRPAREN : N := 41.
Definition cSTAR : N := 42.
Definition cPLUS : N := 43.
Definition cDOT : N := 46.
Definition cQUERY : N := 63.
Definition cBAR : N := 124.

(** The syntax characters outside the embedded fragment. *)
Definition outsideFragment (c : N) : bool :=
  ((c =? 92) || (c =? 94) || (c =? 36) || (c =? 91) || (c =? 93)
   || (c =? 123) || (c =? 125))%N.

Definition isQuantifier (c : N) : bool :=
  ((c =? cSTAR) || (c =? cPLUS) || (c =? cQUERY))%N.

(** A quantifier after an atom, if there is one.  A [?] after the
    quantifier would make it lazy. *)
Definition parseQuantifier (atom : regex) (s : jsstring)
  : Outcome (regex * jsstring) :=
  match s with
  | q :: t =>
      if isQuantifier q then
        match t with
        | q' :: _ =>
            if (q' =? cQUERY)%N then NotModelled
            else Returns ((if (q =? cSTAR)%N then Star atom
                           else if (q =? cPLUS)%N then Plus atom
                           else Opt atom), t)
        | [] =>
            Returns ((if (q =? cSTAR)%N then Star atom
                      else if (q =? cPLUS)%N then Plus atom
                      else Opt atom), t)
        end
      else Returns (atom, s)
  | [] => Returns (atom, s)
  end.

(** Alternative of the pattern grammar, by recursive descent: the terms
    up to a [|], a [)] or the end of the pattern, accumulated in [acc];
    [parseGroup] parses the Disjunction inside a group.  A quantifier with
    no atom before it is the early error "nothing to repeat", a group with
    no closing parenthesis is the early error "unterminated group". *)
Fixpoint parseAlternative
    (parseGroup : jsstring -> Outcome (regex * jsstring))
    (n : nat) (acc : regex) (s : jsstring) : Outcome (regex * jsstring) :=
  match n with
  | O => NotModelled
  | S n' =>
      match s with
      | [] => Returns (acc, s)
      | c :: t =>
          if ((c =? cBAR) || (c =? cRPAREN))%N then Returns (acc, s)
          else if isQuantifier c then ThrowsSyntaxError
          else if (c =? cLPAREN)%N then
            match t with
            | c' :: _ =>
                if (c' =? cQUERY)%N then NotModelled
                else
                  match parseGroup t with
                  | Returns (r, rest) =>
                      match rest with
                      | c'' :: rest' =>
                          if (c'' =? cRPAREN)%N then
                            match parseQuantifier (Group r) rest' with
                            | Returns (term, rest'') =>
                                parseAlternative parseGroup n'
                                  (Seq acc term) rest''
                            | ThrowsSyntaxError => ThrowsSyntaxError
                            | NotModelled => NotModelled
                            end
                          else ThrowsSyntaxError
                      | [] => ThrowsSyntaxError
                      end
                  | ThrowsSyntaxError => ThrowsSyntaxError
                  | NotModelled => NotModelled
                  end
            | [] => ThrowsSyntaxError
            end
          else
            match parseQuantifier
                    (if (c =? cDOT)%N then Dot else Char c) t with
            | Returns (term, rest) =>
                parseAlternative parseGroup n' (Seq acc term) rest
            | ThrowsSyntaxError => ThrowsSyntaxError
            | NotModelled => NotModelled
            end
      end
  end.

(** Disjunction of the pattern grammar: alternatives separated by [|].
    [fuel] bounds the nesting of groups and the number of alternatives. *)
Fixpoint parseDisjunction (fuel : nat) (s : jsstring)
  : Outcome (regex * jsstring) :=
  match fuel with
  | O => NotModelled
  | S fuel' =>
      match parseAlternative (parseDisjunction fuel') (S (length s))
              Empty s with
      | Returns (r1, rest) =>
          match rest with
          | c :: rest' =>
              if (c =? cBAR)%N then
                match parseDisjunction fuel' rest' with
                | Returns (r2, rest'') => Returns (Alt r1 r2, rest'')
                | ThrowsSyntaxError => ThrowsSyntaxError
                | NotModelled => NotModelled
                end
              else Returns (r1, rest)
          | [] => Returns (r1, rest)
          end
      | ThrowsSyntaxError => ThrowsSyntaxError
      | NotModelled => NotModelled
      end
  end.

(** [new RegExp(pattern, "gi")]: a [)] left over at top level is the early
    error "unmatched parenthesis". *)
Definition parsePattern (pattern : jsstring) : Outcome regex :=
  if existsb outsideFragment pattern then NotModelled
  else
    match parseDisjunction (S (length pattern)) pattern with
    | Returns (r, []) => Returns r
    | Returns (_, _ :: _) => ThrowsSyntaxError
    | ThrowsSyntaxError => ThrowsSyntaxError
    | NotModelled => NotModelled
    end.

(** [.] matches any code unit that is not a line terminator. *)
Definition isLineTerminator (c : N) : bool :=
  ((c =? 10) || (c =? 13) || (c =? 8232) || (c =? 8233))%N.

Section Matcher.

(** Canonicalize of the ignore-case flag: the upper-case mapping of one
    code unit. *)
Variable canonicalize : N -> N.

(** RepeatMatcher for a greedy quantifier without upper bound: [m] is the
    matcher of the quantified atom.  An iteration that consumes nothing is
    rejected; [n] bounds the number of iterations by the length of the
    input. *)
Fixpoint repeatMatcher
    (m : jsstring -> (jsstring -> option jsstring) -> option jsstring)
    (k : jsstring -> option jsstring) (n : nat) (s : jsstring)
  : option jsstring :=
  match n with
  | O => k s
  | S n' =>
      match m s (fun s' => if (length s' <? length s)%nat
                           then repeatMatcher m k n' s' else None) with
      | Some e => Some e
      | None => k s
      end
  end.

(** The backtracking matcher: [matchRe r s k] matches [r] at the start of
    [s] and passes what is left of [s] to the continuation [k]; the first
    success in priority order wins. *)
Fixpoint matchRe (r : regex) (s : jsstring)
    (k : jsstring -> option jsstring) {struct r} : option jsstring :=
  match r with
  | Empty => k s
  | Char c =>
      match s with
      | d :: t => if (canonicalize d =? canonicalize c)%N then k t else None
      | [] => None
      end
  | Dot =>
      match s with
      | d :: t => if isLineTerminator d then None else k t
      | [] => None
      end
  | Seq r1 r2 => matchRe r1 s (fun s' => matchRe r2 s' k)
  | Alt r1 r2 =>
      match matchRe r1 s k with
      | Some e => Some e
      | None => matchRe r2 s k
      end
  | Star r' => repeatMatcher (matchRe r') k (length s) s
  | Plus r' =>
      matchRe r' s (fun s1 => repeatMatcher (matchRe r') k (length s1) s1)
  | Opt r' =>
      match matchRe r' s
              (fun s' => if (length s' <? length s)%nat
                         then k s' else None) with
      | Some e => Some e
      | None => k s
      end
  | Group r' => matchRe r' s k
  end.

(** The number of matches that [content.match(re)] collects with the
    global flag: after a match the search resumes where the match ended,
    or one code unit further when the match was empty; after a failure at
    a position it resumes one code unit further. *)
Fixpoint countMatches (fuel : nat) (r : regex) (s : jsstring) : nat :=
  match fuel with
  | O => O
  | S fuel' =>
      match matchRe r s (fun e => Some e) with
      | Some e =>
          if (length e <? length s)%nat
          then S (countMatches fuel' r e)
          else match s with
               | [] => 1%nat
               | _ :: t => S (countMatches fuel' r t)
               end
      | None =>
          match s with
          | [] => O
          | _ :: t => countMatches fuel' r t
          end
      end
  end.

(** [(content.match(new RegExp(word, "gi")) || []).length] *)
Definition matchCount (word content : jsstring) : Outcome Z :=
  match parsePattern word with
  | Returns r => Returns (Z.of_nat (countMatches (S (length content)) r content))
  | ThrowsSyntaxError => ThrowsSyntaxError
  | NotModelled => NotModelled
  end.

End Matcher.

End RegExp.

(** Lower case and Canonicalize on ASCII strings, where the Unicode
    mappings of [toLowerCase] and of the ignore-case flag change the
    letters A-Z and a-z only. *)
Definition asciiToLowerCase (s : jsstring) : jsstring :=
  map (fun c => if ((65 <=? c) && (c <=? 90))%N then (c + 32)%N else c) s.

Definition asciiCanonicalize (c : N) : N :=
  if ((97 <=? c) && (c <=? 122))%N then (c - 32)%N else c.

(** ** findRelevantChunks *)

(** An entry of the ranked output: either a chunk as it was passed in
    ([score] absent) or the copy [{...chunk, score}]. *)
Record RankedChunk : Type := mkRanked
  { base : Chunk;
    score : option Z }.

Definition unscored (c : Chunk) : RankedChunk := mkRanked c None.

Definition stopWords : list jsstring :=
  map lit
    ["what"; "is"; "the"; "of"; "as"; "in"; "a"; "an"; "and"; "or"; "to";
     "that"; "this"; "it"; "for"; "on"; "are"; "was"; "with"; "by"; "at";
     "from"; "stated"; "text"; "me"; "tell"; "about"; "does"]%string.

(** [stopWords.has(w)] *)
Definition isStopWord (w : jsstring) : bool := existsb (JS.eqb w) stopWords.

(** The comparator [(a, b) => b.score - a.score]; [None] is NaN, the
    difference when a score is absent. *)
Definition compareScore (a b : RankedChunk) : option Z :=
  match score b, score a with
  | Some sb, Some sa => Some (sb - sa)
  | _, _ => None
  end.

(** [Array.prototype.sort] is stable and reads a NaN from the comparator
    as 0: an element moves behind another only when the comparator is
    positive. *)
Definition comesAfter {A : Type} (cmp : A -> A -> option Z) (x y : A) : bool :=
  match cmp x y with
  | Some v => 0 <? v
  | None => false
  end.

Fixpoint insertSorted {A : Type} (cmp : A -> A -> option Z) (x : A)
    (l : list A) : list A :=
  match l with
  | [] => [x]
  | y :: t => if comesAfter cmp x y then y :: insertSorted cmp x t
              else x :: l
  end.

Fixpoint sort {A : Type} (cmp : A -> A -> option Z) (l : list A) : list A :=
  match l with
  | [] => []
  | x :: t => insertSorted cmp x (sort cmp t)
  end.

Section Ranker.

(** [String.prototype.toLowerCase]. *)
Variable toLowerCase : jsstring -> jsstring.

(** [(content.match(new RegExp(word, "gi")) || []).length], or the
    exception of the RegExp constructor. *)
Variable regExpMatchCount : jsstring -> jsstring -> Outcome Z.

(** Lines 138-141. *)
Definition queryWords (query : jsstring) : list jsstring :=
  filter (fun w => (len w >? 2) && negb (isStopWord w))
         (split isWhiteSpace (toLowerCase query)).

(** The [reduce] of lines 148-152, from the accumulator [acc]. *)
Fixpoint scoreContent (words : list jsstring) (content : jsstring) (acc : Z)
  : Outcome Z :=
  match words with
  | [] => Returns acc
  | word :: rest =>
      match regExpMatchCount word content with
      | Returns matches => scoreContent rest content (acc + matches)
      | ThrowsSyntaxError => ThrowsSyntaxError
      | NotModelled => NotModelled
      end
  end.

(** The [map] of lines 146-154. *)
Fixpoint scoreChunks (words : list jsstring) (chunks : list Chunk)
  : Outcome (list RankedChunk) :=
  match chunks with
  | [] => Returns []
  | chunk :: rest =>
      match scoreContent words (toLowerCase (content chunk)) 0 with
      | Returns score =>
          match scoreChunks words rest with
          | Returns scored => Returns (mkRanked chunk (Some score) :: scored)
          | ThrowsSyntaxError => ThrowsSyntaxError
          | NotModelled => NotModelled
          end
      | ThrowsSyntaxError => ThrowsSyntaxError
      | NotModelled => NotModelled
      end
  end.

Definition hasPositiveScore (c : RankedChunk) : bool :=
  match score c with
  | Some v => v >? 0
  | None => false
  end.

(** Lines 156 and 159: [filtered.length > 0 ? filtered : chunks]. *)
Definition selectCandidates (scored : list RankedChunk)
    (chunks : list Chunk) : list RankedChunk :=
  let filtered := filter hasPositiveScore scored in
  if len filtered >? 0 then filtered else map unscored chunks.

Definition findRelevantChunks (chunks : list Chunk) (query : jsstring)
    (topK : Z) : Outcome (list RankedChunk) :=
  if (len chunks =? 0) || (len query =? 0) then Returns []
  else
    let queryWords := queryWords query in
    if len queryWords =? 0 then Returns (map unscored (slice chunks 0 topK))
    else
      match scoreChunks queryWords chunks with
      | Returns scored =>
          Returns (slice (sort compareScore (selectCandidates scored chunks))
                         0 topK)
      | ThrowsSyntaxError => ThrowsSyntaxError
      | NotModelled => NotModelled
      end.

End Ranker.

Definition defaultTopK : Z := 5.

(** [findRelevantChunks] with the embedded fragment of RegExp. *)
Definition findRelevantChunksWith (toLowerCase : jsstring -> jsstring)
    (canonicalize : N -> N) : list Chunk -> jsstring -> Z
                              -> Outcome (list RankedChunk) :=
  findRelevantChunks toLowerCase (RegExp.matchCount canonicalize).

(** ** Vocabulary of the statements *)

(** The word count the code takes of a string (lines 23-24). *)
Definition wordCount (s : jsstring) : Z :=
  len (split isWhiteSpace (trim s)).

(** The words of a text, as the chunker sees them. *)
Definition wordsOf (text : jsstring) : list jsstring :=
  split isWhiteSpace (trim (cleanText text)).

(** The [j]-th sliding window over [words]. *)
Definition window (words : list jsstring) (chunkSize overlap : Z) (j : nat)
  : list jsstring :=
  slice words (Z.of_nat j * (chunkSize - overlap))
              (Z.of_nat j * (chunkSize - overlap) + chunkSize).

Definition windowChunk (words : list jsstring) (chunkSize overlap : Z)
    (j : nat) : Chunk :=
  mkChunk (join [SP] (window words chunkSize overlap j)) (Z.of_nat j) 0.

(** Ceiling of [max (W - chunkSize) 0 / (chunkSize - overlap)], plus one. *)
Definition windowCount (W chunkSize overlap : Z) : nat :=
  S (Z.to_nat ((Z.max (W - chunkSize) 0 + (chunkSize - overlap - 1))
               / (chunkSize - overlap))).

Definition whiteSpaceOnly (s : jsstring) : Prop :=
  Forall (fun c => isWhiteSpace c = true) s.

Definition noWhiteSpace (s : jsstring) : Prop :=
  Forall (fun c => isWhiteSpace c = false) s.

Definition isWord (w : jsstring) : Prop := w <> [] /\ noWhiteSpace w.

(** The first and the last code unit of a trimmed, non-empty string. *)
Definition startsWord (s : jsstring) : bool :=
  match s with
  | [] => false
  | c :: _ => negb (isWhiteSpace c)
  end.

Fixpoint endsWord (s : jsstring) : bool :=
  match s with
  | [] => false
  | [c] => negb (isWhiteSpace c)
  | _ :: t => endsWord t
  end.

Definition Trimmed (s : jsstring) : Prop :=
  startsWord s = true /\ endsWord s = true.

(** Every white-space code unit of the string is a plain space. *)
Definition spacesOnly (s : jsstring) : Prop :=
  Forall (fun c => isWhiteSpace c = true -> c = SP) s.

(** An entry of the ranked output that has a non-negative score. *)
Definition carriesScore (e : RankedChunk) : Prop :=
  exists v, score e = Some v /\ 0 <= v.

(** [a] is not ranked below [b]: when both have a score, that of [a] is at
    least that of [b]. *)
Definition scoreGe (a b : RankedChunk) : Prop :=
  match score a, score b with
  | Some x, Some y => y <= x
  | _, _ => True
  end.

Definition hasScore (v : option Z) (e : RankedChunk) : bool :=
  match score e, v with
  | Some x, Some y => x =? y
  | None, None => true
  | _, _ => false
  end.

(** What [findRelevantChunks] ranks and cuts to [topK]: nothing after the
    guard of line 105, the chunks as given when no query word is left, the
    candidates of line 159 otherwise. *)
Definition candidates (toLowerCase : jsstring -> jsstring)
    (regExpMatchCount : jsstring -> jsstring -> Outcome Z)
    (chunks : list Chunk) (query : jsstring) : Outcome (list RankedChunk) :=
  if (len chunks =? 0) || (len query =? 0) then Returns []
  else if len (queryWords toLowerCase query) =? 0
  then Returns (map unscored chunks)
  else
    match scoreChunks toLowerCase regExpMatchCount
            (queryWords toLowerCase query) chunks with
    | Returns scored => Returns (selectCandidates scored chunks)
    | ThrowsSyntaxError => ThrowsSyntaxError
    | NotModelled => NotModelled
    end.

(** The literal, case-insensitive occurrences of a word [w] in [s],
    found left to right and not overlapping; letters are compared through
    [canonicalize].  [skip] counts the code units of the current
    occurrence that are still to be passed. *)
Fixpoint occursAt (canonicalize : N -> N) (w s : jsstring) : bool :=
  match w, s with
  | [], _ => true
  | c :: w', d :: s' =>
      (canonicalize d =? canonicalize c)%N && occursAt canonicalize w' s'
  | _ :: _, [] => false
  end.

Fixpoint literalOccurrences_from (canonicalize : N -> N) (w s : jsstring)
    (skip : nat) : Z :=
  match s with
  | [] => 0
  | _ :: t =>
      match skip with
      | S k => literalOccurrences_from canonicalize w t k
      | O =>
          if occursAt canonicalize w s
          then 1 + literalOccurrences_from canonicalize w t (pred (length w))
          else literalOccurrences_from canonicalize w t 0
      end
  end.

Definition literalOccurrences (canonicalize : N -> N) (w s : jsstring) : Z :=
  literalOccurrences_from canonicalize w s 0.

(** The syntax characters of the pattern grammar. *)
Definition isSyntaxCharacter (c : N) : bool :=
  RegExp.outsideFragment c || RegExp.isQuantifier c
  || (c =? RegExp.cLPAREN)%N || (c =? RegExp.cRPAREN)%N
  || (c =? RegExp.cBAR)%N || (c =? RegExp.cDOT)%N.

(** A word without syntax characters. *)
Definition plainWord (w : jsstring) : Prop :=
  w <> [] /\ Forall (fun c => isSyntaxCharacter c = false) w.

(** The pattern of a plain word: its characters in sequence. *)
Definition literalPattern (w : jsstring) : RegExp.regex :=
  fold_left (fun acc c => RegExp.Seq acc (RegExp.Char c)) w RegExp.Empty.

(** Matching the characters of [w] one after the other, as the matcher of
    [literalPattern w] does. *)
Fixpoint matchLiteral (canonicalize : N -> N) (w s : jsstring)
    (k : jsstring -> option jsstring) : option jsstring :=
  match w with
  | [] => k s
  | c :: w' =>
      match s with
      | d :: t => if (canonicalize d =? canonicalize c)%N
                  then matchLiteral canonicalize w' t k else None
      | [] => None
      end
  end.

(** ** Sample inputs *)

(** A text of 1000 words. *)
Definition thousandWords : jsstring :=
  concat (repeat (lit "a "%string) 1000).

(** Four chunks, for a query that matches three of them, two with the
    same score. *)
Definition cityChunks : list Chunk :=
  [mkChunk (lit "Paris is great"%string) 0 0;
   mkChunk (lit "Berlin is cold, berlin"%string) 1 0;
   mkChunk (lit "rome is warm"%string) 2 0;
   mkChunk (lit "france paris"%string) 3 0].

(** Two chunks in which no word of the query [capital of France] occurs. *)
Definition parisBerlin : list Chunk :=
  [mkChunk (lit "Paris is great"%string) 0 0;
   mkChunk (lit "Berlin is cold"%string) 1 0].

(** The two best of [cityChunks] for the query [What is paris Berlin]. *)
Definition cityRanking : list RankedChunk :=
  [mkRanked (mkChunk (lit "Berlin is cold, berlin"%string) 1 0) (Some 2);
   mkRanked (mkChunk (lit "Paris is great"%string) 0 0) (Some 1)].

(** ** Vocabulary of the further properties *)

(** The string without its white space. *)
Definition stripWhiteSpace (s : jsstring) : jsstring :=
  filter (fun c => negb (isWhiteSpace c)) s.

(** No two white-space code units are next to each other. *)
Definition singleSpaced (s : jsstring) : Prop :=
  forall l1 c d l2,
    s = l1 ++ c :: d :: l2 ->
    isWhiteSpace c = true -> isWhiteSpace d = true -> False.

(** The words of a chunk, as [content.split(/\s+/)] gives them. *)
Definition chunkWords (c : Chunk) : list jsstring :=
  split isWhiteSpace (content c).

(** The chunks emitted so far are numbered 0, 1, 2, ... in order, the next
    index is their number, and their page number is 0. *)
Definition wellIndexed (st : ChunkerState) : Prop :=
  nextIndex st = len (chunks st)
  /\ map chunkIndex (chunks st)
     = map Z.of_nat (seq 0 (length (chunks st)))
  /\ Forall (fun c => pageNumber c = 0) (chunks st).

(** The score of a text for query words counted as literal strings. *)
Definition literalScore (canonicalize : N -> N) (words : list jsstring)
    (text : jsstring) : Z :=
  fold_left (fun a w => a + literalOccurrences canonicalize w text) words 0.

(** An entry that was ranked: it has a score, and the score is positive. *)
Definition rankedEntry (e : RankedChunk) : Prop :=
  exists v, score e = Some v /\ 0 < v.

(** ** Strings: lemmas *)

Section StringLemmas.

Lemma startsWith_In (pat s : jsstring) :
  startsWith pat s = true -> forall x, In x pat -> In x s.
Proof.
  revert s; induction pat as [|c pat IH]; intros s H x Hx.
  - destruct Hx.
  - destruct s as [|d s]; [discriminate|].
    simpl in H. apply andb_true_iff in H as [Hc Hs].
    apply N.eqb_eq in Hc. subst d.
    destruct Hx as [->|Hx]; [now left|right; eauto].
Qed.

Lemma startsWith_length (pat s : jsstring) :
  startsWith pat s = true -> (length pat <= length s)%nat.
Proof.
  revert s; induction pat as [|c pat IH]; intros s H; simpl.
  - lia.
  - destruct s as [|d s]; [discriminate|].
    simpl in H. apply andb_true_iff in H as [_ Hs].
    apply IH in Hs. simpl. lia.
Qed.

(** A pattern with a code unit that the string lacks matches nowhere. *)
Lemma replaceAll_absent (pat rep s : jsstring) (x : N) :
  In x pat -> ~ In x s -> replaceAll pat rep s = s.
Proof.
  intros Hpat. unfold replaceAll.
  induction s as [|c t IH]; intros Hs; [reflexivity|].
  cbn [replaceAll_from].
  destruct (startsWith pat (c :: t)) eqn:E.
  - exfalso. apply Hs. eapply startsWith_In; eauto.
  - f_equal. apply IH. intros Hin. apply Hs. now right.
Qed.

Lemma replaceAll_from_length (pat rep s : jsstring) (skip : nat) :
  (length rep <= length pat)%nat -> (0 < length pat)%nat ->
  (length (replaceAll_from pat rep s skip) + Nat.min skip (length s)
   <= length s)%nat.
Proof.
  intros Hrep Hpat. revert skip.
  induction s as [|c t IH]; intros skip; simpl.
  - lia.
  - destruct skip as [|k].
    + destruct (startsWith pat (c :: t)) eqn:E.
      * apply startsWith_length in E. simpl in E.
        specialize (IH (pred (length pat))).
        rewrite length_app. lia.
      * specialize (IH 0%nat). simpl. lia.
    + specialize (IH k). lia.
Qed.

Lemma replaceAll_length (pat rep s : jsstring) :
  (length rep <= length pat)%nat -> (0 < length pat)%nat ->
  (length (replaceAll pat rep s) <= length s)%nat.
Proof.
  intros H1 H2. pose proof (replaceAll_from_length pat rep s 0 H1 H2).
  unfold replaceAll. lia.
Qed.

(** Replacing a white-space pattern by white space keeps the other code
    units of the string. *)
Lemma startsWith_firstn (pat s : jsstring) :
  startsWith pat s = true -> firstn (length pat) s = pat.
Proof.
  revert s; induction pat as [|c pat IH]; intros s H; [reflexivity|].
  destruct s as [|d s]; [discriminate|].
  simpl in H. apply andb_true_iff in H as [Hc Hs].
  apply N.eqb_eq in Hc. subst d. simpl. f_equal. auto.
Qed.

Lemma replaceAll_from_hasWord (pat rep s : jsstring) (skip : nat) :
  pat <> [] ->
  whiteSpaceOnly pat ->
  whiteSpaceOnly (firstn skip s) ->
  Exists (fun c => isWhiteSpace c = false) s ->
  Exists (fun c => isWhiteSpace c = false) (replaceAll_from pat rep s skip).
Proof.
  intros Hne Hpat. revert skip.
  induction s as [|c t IH]; intros skip Hskip Hex.
  - inversion Hex.
  - assert (Htail : isWhiteSpace c = true ->
                    Exists (fun c => isWhiteSpace c = false) t).
    { intros Hc. inversion Hex; subst; [congruence|assumption]. }
    cbn [replaceAll_from]. destruct skip as [|k].
    + destruct (startsWith pat (c :: t)) eqn:E.
      * pose proof (startsWith_firstn _ _ E) as Hf.
        destruct pat as [|p pat']; [congruence|].
        simpl in Hf. injection Hf as Hp Hf. subst p.
        inversion Hpat as [|? ? Hc Hpat']; subst.
        apply Exists_app. right. apply IH; [|auto].
        simpl. rewrite Hf. exact Hpat'.
      * destruct (isWhiteSpace c) eqn:Hc.
        -- apply Exists_cons_tl. apply IH; [constructor|auto].
        -- now apply Exists_cons_hd.
    + simpl in Hskip. inversion Hskip as [|? ? Hc Hk]; subst.
      apply IH; auto.
Qed.

Lemma collapse_from_hasWord (s : jsstring) (b : bool) :
  Exists (fun c => isWhiteSpace c = false) s ->
  Exists (fun c => isWhiteSpace c = false) (collapse_from s b).
Proof.
  revert b; induction s as [|c t IH]; intros b Hex; [inversion Hex|].
  simpl. destruct (isWhiteSpace c) eqn:Hc.
  - assert (Ht : Exists (fun c => isWhiteSpace c = false) t)
      by (inversion Hex; subst; [congruence|assumption]).
    destruct b; [|apply Exists_cons_tl]; now apply IH.
  - now apply Exists_cons_hd.
Qed.

Lemma collapse_from_spacesOnly (s : jsstring) (b : bool) :
  spacesOnly (collapse_from s b).
Proof.
  revert b; induction s as [|c t IH]; intros b; simpl; [constructor|].
  destruct (isWhiteSpace c) eqn:Hc.
  - destruct b; [apply IH|]. constructor; [reflexivity|apply IH].
  - constructor; [congruence|apply IH].
Qed.

Lemma collapse_from_length (s : jsstring) (b : bool) :
  (length (collapse_from s b) <= length s)%nat.
Proof.
  revert b; induction s as [|c t IH]; intros b; simpl; [lia|].
  pose proof (IH true). pose proof (IH false).
  destruct (isWhiteSpace c); [destruct b|]; simpl; lia.
Qed.

(** *** trim *)

Lemma trimStart_suffix (s : jsstring) :
  exists p, s = p ++ trimStart s /\ whiteSpaceOnly p.
Proof.
  induction s as [|c t [p [Hp Hws]]]; simpl.
  - exists []. split; [reflexivity|constructor].
  - destruct (isWhiteSpace c) eqn:Hc.
    + exists (c :: p). split; [simpl; congruence|now constructor].
    + exists []. split; [reflexivity|constructor].
Qed.

Lemma trimStart_startsWord (s : jsstring) :
  trimStart s <> [] -> startsWord (trimStart s) = true.
Proof.
  induction s as [|c t IH]; simpl; [congruence|].
  destruct (isWhiteSpace c) eqn:Hc; [exact IH|].
  intros _. simpl. now rewrite Hc.
Qed.

Lemma trimStart_id (s : jsstring) :
  startsWord s = true -> trimStart s = s.
Proof.
  destruct s as [|c t]; simpl; [discriminate|].
  now destruct (isWhiteSpace c).
Qed.

Lemma trimStart_nil_iff (s : jsstring) :
  trimStart s = [] <-> whiteSpaceOnly s.
Proof.
  induction s as [|c t IH]; simpl.
  - split; [constructor|reflexivity].
  - destruct (isWhiteSpace c) eqn:Hc.
    + rewrite IH. split; [now constructor|now inversion 1].
    + split; [discriminate|]. inversion 1; congruence.
Qed.

Lemma trimStart_app_word (l : jsstring) (c : N) :
  isWhiteSpace c = false -> trimStart (l ++ [c]) = trimStart l ++ [c].
Proof.
  intros Hc. induction l as [|d l IH]; simpl.
  - now rewrite Hc.
  - destruct (isWhiteSpace d); [exact IH|reflexivity].
Qed.

Lemma endsWord_app (l : jsstring) (c : N) :
  endsWord (l ++ [c]) = negb (isWhiteSpace c).
Proof.
  induction l as [|d l IH]; [reflexivity|].
  simpl. destruct (l ++ [c]) eqn:E; [|exact IH].
  destruct l; discriminate.
Qed.

Lemma endsWord_last (s : jsstring) :
  endsWord s = true ->
  exists l c, s = l ++ [c] /\ isWhiteSpace c = false.
Proof.
  intros H. induction s as [|c l _] using rev_ind; [discriminate|].
  rewrite endsWord_app in H. exists l, c. split; [reflexivity|].
  now destruct (isWhiteSpace c).
Qed.

Lemma trimEnd_id (s : jsstring) :
  endsWord s = true -> trimEnd s = s.
Proof.
  intros H. apply endsWord_last in H as (l & c & -> & Hc).
  unfold trimEnd. rewrite rev_app_distr. simpl. rewrite Hc.
  change (c :: rev l) with ([c] ++ rev l).
  now rewrite rev_app_distr, rev_involutive.
Qed.

Lemma trimEnd_endsWord (s : jsstring) :
  trimEnd s <> [] -> endsWord (trimEnd s) = true.
Proof.
  unfold trimEnd. intros H.
  assert (Hne : trimStart (rev s) <> []).
  { intros E. apply H. now rewrite E. }
  pose proof (trimStart_startsWord _ Hne) as Hs.
  destruct (trimStart (rev s)) as [|c t]; [congruence|].
  simpl in *. rewrite endsWord_app. exact Hs.
Qed.

Lemma trimEnd_cons_word (c : N) (t : jsstring) :
  isWhiteSpace c = false -> trimEnd (c :: t) = c :: trimEnd t.
Proof.
  intros Hc. unfold trimEnd. simpl.
  rewrite trimStart_app_word by exact Hc.
  now rewrite rev_app_distr.
Qed.

Lemma whiteSpaceOnly_rev (s : jsstring) :
  whiteSpaceOnly s -> whiteSpaceOnly (rev s).
Proof. apply Forall_rev. Qed.

Lemma trimEnd_nil_iff (s : jsstring) :
  trimEnd s = [] <-> whiteSpaceOnly s.
Proof.
  unfold trimEnd. split.
  - intros H. apply (f_equal (@rev N)) in H.
    rewrite rev_involutive in H. simpl in H.
    apply trimStart_nil_iff in H. apply whiteSpaceOnly_rev in H.
    now rewrite rev_involutive in H.
  - intros H. apply whiteSpaceOnly_rev in H.
    apply trimStart_nil_iff in H. now rewrite H.
Qed.

Lemma trim_nil_iff (s : jsstring) :
  trim s = [] <-> whiteSpaceOnly s.
Proof.
  unfold trim. rewrite trimEnd_nil_iff.
  destruct (trimStart_suffix s) as [p [Hp Hws]].
  split.
  - intros H. rewrite Hp. apply Forall_app. now split.
  - intros H. rewrite Hp in H. now apply Forall_app in H.
Qed.

Lemma trim_Trimmed (s : jsstring) :
  trim s <> [] -> Trimmed (trim s).
Proof.
  intros H. split.
  - unfold trim in *.
    assert (Hne : trimStart s <> []).
    { intros E. apply H. rewrite E. reflexivity. }
    pose proof (trimStart_startsWord _ Hne) as Hs.
    destruct (trimStart s) as [|c t]; [congruence|].
    simpl in Hs. apply negb_true_iff in Hs.
    rewrite trimEnd_cons_word by exact Hs. simpl. now rewrite Hs.
  - now apply trimEnd_endsWord.
Qed.

Lemma Trimmed_trim (s : jsstring) : Trimmed s -> trim s = s.
Proof.
  intros [Hs He]. unfold trim.
  rewrite (trimStart_id _ Hs). now apply trimEnd_id.
Qed.

Lemma Trimmed_nonempty (s : jsstring) : Trimmed s -> s <> [].
Proof. intros [Hs _] ->. discriminate. Qed.

Lemma trimStart_Forall (P : N -> Prop) (s : jsstring) :
  Forall P s -> Forall P (trimStart s).
Proof.
  intros H. destruct (trimStart_suffix s) as [p [Hp _]].
  rewrite Hp in H. now apply Forall_app in H.
Qed.

Lemma trim_Forall (P : N -> Prop) (s : jsstring) :
  Forall P s -> Forall P (trim s).
Proof.
  intros H. unfold trim, trimEnd.
  apply Forall_rev, trimStart_Forall, Forall_rev, trimStart_Forall, H.
Qed.

Lemma trimStart_length (s : jsstring) :
  (length (trimStart s) <= length s)%nat.
Proof.
  destruct (trimStart_suffix s) as [p [Hp _]].
  rewrite Hp at 2. rewrite length_app. lia.
Qed.

Lemma trim_length (s : jsstring) : (length (trim s) <= length s)%nat.
Proof.
  unfold trim, trimEnd. rewrite length_rev.
  etransitivity; [apply trimStart_length|].
  rewrite length_rev. apply trimStart_length.
Qed.

End StringLemmas.

(** *** split and join *)

Section SplitLemmas.

Variable sep : N -> bool.

Lemma split_from_cons (s : jsstring) (b : bool) :
  exists p ps, split_from sep s b = p :: ps.
Proof.
  revert b; induction s as [|c t IH]; intros b; simpl; [eauto|].
  destruct (sep c).
  - destruct b; [apply IH|eauto].
  - destruct (IH false) as (p & ps & ->). eauto.
Qed.

Lemma split_from_noSep (s : jsstring) (b : bool) :
  Forall (fun c => sep c = false) s -> split_from sep s b = [s].
Proof.
  intros H. revert b. induction H as [|c t Hc Ht IH]; intros b; simpl.
  - reflexivity.
  - now rewrite Hc, IH.
Qed.

Lemma split_from_pieces (s : jsstring) (b : bool) :
  Forall (Forall (fun c => sep c = false)) (split_from sep s b).
Proof.
  revert b; induction s as [|c t IH]; intros b; simpl.
  - repeat constructor.
  - destruct (sep c) eqn:Hc.
    + destruct b; [apply IH|constructor; [constructor|apply IH]].
    + specialize (IH false).
      destruct (split_from sep t false) as [|w ws].
      * repeat constructor; assumption.
      * inversion IH; subst. constructor; [now constructor|assumption].
Qed.

Lemma split_from_length (s : jsstring) (b : bool) :
  (1 <= length (split_from sep s b) <= S (length s))%nat.
Proof.
  revert b; induction s as [|c t IH]; intros b; simpl; [lia|].
  pose proof (IH true). pose proof (IH false).
  destruct (sep c).
  - destruct b; simpl; lia.
  - destruct (split_from sep t false); simpl in *; lia.
Qed.

Lemma split_from_word_app (w s : jsstring) :
  Forall (fun c => sep c = false) w ->
  split_from sep (w ++ s) false =
  match split_from sep s false with
  | p :: ps => (w ++ p) :: ps
  | [] => [w]
  end.
Proof.
  intros H. induction H as [|c t Hc Ht IH]; simpl.
  - destruct (split_from_cons s false) as (p & ps & ->). reflexivity.
  - rewrite Hc, IH.
    destruct (split_from_cons s false) as (p & ps & ->). reflexivity.
Qed.

Lemma split_from_word_start (c : N) (t : jsstring) (b : bool) :
  sep c = false -> split_from sep (c :: t) b = split_from sep (c :: t) false.
Proof. intros Hc. simpl. now rewrite Hc. Qed.

End SplitLemmas.

Lemma join_Forall (P : N -> Prop) (sepr : jsstring) (ws : list jsstring) :
  Forall P sepr -> Forall (Forall P) ws -> Forall P (join sepr ws).
Proof.
  intros Hsep H. induction H as [|w ws Hw Hws IH]; [constructor|].
  simpl. destruct ws as [|w' ws']; [assumption|].
  apply Forall_app. split; [assumption|].
  apply Forall_app. split; assumption.
Qed.

Lemma join_cons2 (sepr w w' : jsstring) (ws : list jsstring) :
  join sepr (w :: w' :: ws) = w ++ sepr ++ join sepr (w' :: ws).
Proof. reflexivity. Qed.

(** The pieces of a trimmed string are words. *)
Lemma split_words (s : jsstring) :
  endsWord s = true ->
  forall b,
    Forall (fun w => w <> []) (tl (split_from isWhiteSpace s b))
    /\ (b = true \/ startsWord s = true ->
        hd [] (split_from isWhiteSpace s b) <> []).
Proof.
  induction s as [|c t IH]; intros He b; [discriminate|].
  assert (Ht : t <> [] -> endsWord t = true).
  { intros Hne. destruct t; [congruence|exact He]. }
  simpl. destruct (isWhiteSpace c) eqn:Hc.
  - assert (Hne : t <> []).
    { intros ->. simpl in He. rewrite Hc in He. discriminate. }
    destruct (IH (Ht Hne) true) as [Htl Hhd].
    assert (Hall : Forall (fun w => w <> [])
                     (split_from isWhiteSpace t true)).
    { destruct (split_from_cons isWhiteSpace t true) as (p & ps & E).
      rewrite E in *. simpl in *. constructor; auto. }
    destruct b; simpl.
    + split; [exact Htl|intros _; auto].
    + split; [exact Hall|]. intros [Hb|Hs]; [discriminate|].
      discriminate.
  - destruct (split_from_cons isWhiteSpace t false) as (p & ps & E).
    rewrite E. simpl. split; [|intros _; discriminate].
    destruct t as [|d t'].
    + simpl in E. injection E as _ <-. constructor.
    + destruct (IH (Ht ltac:(discriminate)) false) as [Htl _].
      rewrite E in Htl. exact Htl.
Qed.

Lemma Trimmed_words (s : jsstring) :
  Trimmed s -> Forall isWord (split isWhiteSpace s).
Proof.
  intros [Hs He]. unfold split.
  destruct (split_words s He false) as [Htl Hhd].
  pose proof (split_from_pieces isWhiteSpace s false) as Hp.
  destruct (split_from_cons isWhiteSpace s false) as (p & ps & E).
  rewrite E in *. simpl in *.
  assert (Hne : Forall (fun w => w <> []) (p :: ps)).
  { constructor; auto. }
  clear - Hne Hp. induction Hne; inversion Hp; subst; constructor.
  - split; assumption.
  - auto.
Qed.

Lemma isWord_split (w : jsstring) (b : bool) :
  isWord w -> split_from isWhiteSpace w b = [w].
Proof. intros [_ H]. now apply split_from_noSep. Qed.

(** Splitting the words joined by single spaces gives the words back. *)
Lemma split_join_words (ws : list jsstring) (b : bool) :
  ws <> [] -> Forall isWord ws ->
  split_from isWhiteSpace (join [SP] ws) b = ws.
Proof.
  intros Hne H. revert b. induction H as [|w ws Hw Hws IH]; intros b;
    [congruence|].
  destruct ws as [|w' ws'].
  - simpl. now apply isWord_split.
  - rewrite join_cons2.
    destruct Hw as [Hwne Hwns].
    destruct w as [|c w0]; [congruence|].
    change ((c :: w0) ++ [SP] ++ join [SP] (w' :: ws'))
      with (c :: (w0 ++ [SP] ++ join [SP] (w' :: ws'))).
    inversion Hwns as [|? ? Hc Hw0]; subst.
    rewrite split_from_word_start by exact Hc.
    change (c :: w0 ++ [SP] ++ join [SP] (w' :: ws'))
      with ((c :: w0) ++ SP :: join [SP] (w' :: ws')).
    rewrite split_from_word_app by exact Hwns.
    cbn [split_from]. change (isWhiteSpace SP) with true. cbn iota.
    rewrite app_nil_r. f_equal. apply IH. discriminate.
Qed.

Lemma endsWord_cons (c : N) (t : jsstring) :
  t <> [] -> endsWord (c :: t) = endsWord t.
Proof. destruct t; [congruence|reflexivity]. Qed.

Lemma endsWord_app_r (l s : jsstring) :
  s <> [] -> endsWord (l ++ s) = endsWord s.
Proof.
  intros Hs. induction l as [|c l IH]; [reflexivity|].
  simpl app. rewrite endsWord_cons; [exact IH|].
  destruct l; simpl; [assumption|discriminate].
Qed.

Lemma isWord_Trimmed (w : jsstring) : isWord w -> Trimmed w.
Proof.
  intros [Hne Hns]. split.
  - destruct w as [|c t]; [congruence|]. inversion Hns; subst.
    simpl. now apply negb_true_iff.
  - induction w as [|c l _] using rev_ind; [congruence|].
    rewrite endsWord_app. apply Forall_app in Hns as [_ Hc].
    inversion Hc; subst. now apply negb_true_iff.
Qed.

Lemma join_words_Trimmed (ws : list jsstring) :
  ws <> [] -> Forall isWord ws -> Trimmed (join [SP] ws).
Proof.
  intros Hne H. induction H as [|w ws Hw Hws IH]; [congruence|].
  destruct ws as [|w' ws']; [now apply isWord_Trimmed|].
  rewrite join_cons2. destruct (IH ltac:(discriminate)) as [Hs He].
  destruct (isWord_Trimmed Hw) as [Hws' _]. split.
  - destruct w; [discriminate|exact Hws'].
  - rewrite endsWord_app_r.
    + change ([SP] ++ join [SP] (w' :: ws'))
        with (SP :: join [SP] (w' :: ws')).
      rewrite endsWord_cons; [exact He|].
      apply Trimmed_nonempty. split; assumption.
    + discriminate.
Qed.

(** The word count of a chunk made of words joined by spaces. *)
Lemma wordCount_join (ws : list jsstring) :
  ws <> [] -> Forall isWord ws -> wordCount (join [SP] ws) = len ws.
Proof.
  intros Hne H. unfold wordCount.
  rewrite (Trimmed_trim (join_words_Trimmed Hne H)).
  unfold split. now rewrite split_join_words.
Qed.

(** *** slice *)

Lemma Forall_take {A : Type} (P : A -> Prop) (n : nat) (a : list A) :
  Forall P a -> Forall P (firstn n a).
Proof.
  intros H. rewrite <- (firstn_skipn n a) in H.
  now apply Forall_app in H.
Qed.

Lemma Forall_drop {A : Type} (P : A -> Prop) (n : nat) (a : list A) :
  Forall P a -> Forall P (skipn n a).
Proof.
  intros H. rewrite <- (firstn_skipn n a) in H.
  now apply Forall_app in H.
Qed.

Lemma slice_Forall {A : Type} (P : A -> Prop) (a : list A) (i j : Z) :
  Forall P a -> Forall P (slice a i j).
Proof.
  intros H. unfold slice. apply Forall_take, Forall_drop, H.
Qed.

Lemma slice_length_window {A : Type} (a : list A) (i n : Z) :
  0 <= i < len a -> 0 < n ->
  len (slice a i (i + n)) = Z.min n (len a - i).
Proof.
  unfold len, slice, sliceIndex. intros Hi Hn.
  destruct (Z.ltb_spec i 0); [lia|].
  destruct (Z.ltb_spec (i + n) 0); [lia|].
  rewrite length_firstn, length_skipn. lia.
Qed.

Lemma slice_all_from {A : Type} (a : list A) (i j : Z) :
  0 <= i -> len a <= j -> slice a i j = skipn (Z.to_nat i) a.
Proof.
  unfold len, slice, sliceIndex. intros Hi Hj.
  destruct (Z.ltb_spec i 0); [lia|].
  destruct (Z.ltb_spec j 0); [lia|].
  destruct (Z.le_gt_cases i (Z.of_nat (length a))).
  - rewrite (Z.min_l i) by lia. rewrite (Z.min_r j) by lia.
    apply firstn_all2. rewrite length_skipn. lia.
  - rewrite (Z.min_r i) by lia. rewrite (Z.min_r j) by lia.
    rewrite Nat2Z.id. rewrite skipn_all. rewrite skipn_all2 by lia.
    apply firstn_nil.
Qed.

(** ** The normalization of the text *)

Lemma not_whiteSpaceOnly_hasWord (s : jsstring) :
  ~ whiteSpaceOnly s -> Exists (fun c => isWhiteSpace c = false) s.
Proof.
  induction s as [|c t IH]; intros H.
  - exfalso. apply H. constructor.
  - destruct (isWhiteSpace c) eqn:Hc.
    + apply Exists_cons_tl, IH. intros Ht. apply H. now constructor.
    + now apply Exists_cons_hd.
Qed.

Lemma hasWord_not_whiteSpaceOnly (s : jsstring) :
  Exists (fun c => isWhiteSpace c = false) s -> ~ whiteSpaceOnly s.
Proof.
  intros Hex Hall. apply Exists_exists in Hex as (c & Hin & Hc).
  unfold whiteSpaceOnly in Hall. rewrite Forall_forall in Hall.
  specialize (Hall c Hin). congruence.
Qed.

Lemma spacesOnly_no_LF (s : jsstring) : spacesOnly s -> ~ In LF s.
Proof.
  intros H Hin. unfold spacesOnly in H. rewrite Forall_forall in H.
  specialize (H LF Hin eq_refl). discriminate.
Qed.

(** After [replace(/\s+/g, " ")] no newline is left, so the two
    replacements around newlines change nothing. *)
Lemma cleanText_eq (text : jsstring) :
  cleanText text
  = trim (collapseWhiteSpace (replaceAll [CR; LF] [LF] text)).
Proof.
  unfold cleanText.
  set (y := collapseWhiteSpace (replaceAll [CR; LF] [LF] text)).
  assert (Hy : ~ In LF y).
  { apply spacesOnly_no_LF. apply collapse_from_spacesOnly. }
  rewrite (@replaceAll_absent [LF; SP] [LF] y LF); [|now left|exact Hy].
  rewrite (@replaceAll_absent [SP; LF] [LF] y LF);
    [reflexivity|right; now left|exact Hy].
Qed.

Lemma cleanText_spacesOnly (text : jsstring) : spacesOnly (cleanText text).
Proof.
  rewrite cleanText_eq. apply trim_Forall, collapse_from_spacesOnly.
Qed.

Lemma cleanText_Trimmed (text : jsstring) :
  ~ whiteSpaceOnly text -> Trimmed (cleanText text).
Proof.
  intros H. rewrite cleanText_eq. apply trim_Trimmed.
  rewrite trim_nil_iff. apply hasWord_not_whiteSpaceOnly.
  apply collapse_from_hasWord.
  apply replaceAll_from_hasWord.
  - discriminate.
  - repeat constructor.
  - constructor.
  - now apply not_whiteSpaceOnly_hasWord.
Qed.

Lemma cleanText_length (text : jsstring) :
  (length (cleanText text) <= length text)%nat.
Proof.
  rewrite cleanText_eq.
  etransitivity; [apply trim_length|].
  etransitivity; [apply collapse_from_length|].
  apply replaceAll_length; simpl; lia.
Qed.

Lemma isBlank_true_iff (text : jsstring) :
  isBlank text = true <-> whiteSpaceOnly text.
Proof.
  unfold isBlank, len. rewrite orb_true_iff, !Z.eqb_eq. split.
  - intros [H|H].
    + destruct text; [constructor|discriminate].
    + apply trim_nil_iff. destruct (trim text); [reflexivity|discriminate].
  - intros H. right. apply trim_nil_iff in H. now rewrite H.
Qed.

Lemma isBlank_false_iff (text : jsstring) :
  isBlank text = false <-> ~ whiteSpaceOnly text.
Proof.
  rewrite <- isBlank_true_iff. destruct (isBlank text); split; congruence.
Qed.

(** The paragraph split of the cleaned text is the cleaned text alone. *)
Lemma splitParagraphs_cleanText (text : jsstring) :
  ~ whiteSpaceOnly text ->
  splitParagraphs (cleanText text) = [cleanText text].
Proof.
  intros H. unfold splitParagraphs, split.
  rewrite split_from_noSep.
  - simpl. pose proof (cleanText_Trimmed H) as Ht.
    rewrite (Trimmed_trim Ht).
    destruct (cleanText text) eqn:E; [|reflexivity].
    now apply Trimmed_nonempty in Ht.
  - pose proof (cleanText_spacesOnly text) as Hs.
    unfold spacesOnly in Hs. rewrite Forall_forall in *.
    intros c Hin. unfold isLF. apply N.eqb_neq. intros ->.
    specialize (Hs LF Hin eq_refl). discriminate.
Qed.

Lemma wordsOf_eq (text : jsstring) :
  ~ whiteSpaceOnly text ->
  wordsOf text = split isWhiteSpace (cleanText text).
Proof.
  intros H. unfold wordsOf. now rewrite (Trimmed_trim (cleanText_Trimmed H)).
Qed.

Lemma wordsOf_words (text : jsstring) :
  ~ whiteSpaceOnly text -> Forall isWord (wordsOf text).
Proof.
  intros H. rewrite (wordsOf_eq H). apply Trimmed_words.
  now apply cleanText_Trimmed.
Qed.

Lemma wordsOf_length (text : jsstring) :
  (1 <= length (wordsOf text) <= S (length text))%nat.
Proof.
  unfold wordsOf, split.
  pose proof (split_from_length isWhiteSpace (trim (cleanText text)) false).
  pose proof (trim_length (cleanText text)).
  pose proof (cleanText_length text). lia.
Qed.

(** ** The sliding-window loop *)

(** What the loop leaves alone, whatever its parameters. *)
Lemma windowLoop_frame (fuel : nat) (words : list jsstring)
    (chunkSize overlap i : Z) (st st' : ChunkerState) :
  windowLoop fuel words chunkSize overlap i st = Some st' ->
  currentChunk st' = currentChunk st
  /\ currentWordCount st' = currentWordCount st
  /\ exists new,
       chunks st' = chunks st ++ new
       /\ Forall (fun c => exists a b, content c = join [SP] (slice words a b))
                 new
       /\ (i < len words -> new <> []).
Proof.
  revert i st. induction fuel as [|fuel IH]; intros i st H; [discriminate|].
  cbn [windowLoop] in H.
  destruct (Z.ltb_spec i (len words)) as [Hi|Hi].
  - destruct (i + chunkSize >=? len words).
    + injection H as <-. simpl. repeat split; auto.
      eexists. split; [reflexivity|]. split.
      * constructor; [simpl; eauto|constructor].
      * discriminate.
    + apply IH in H as (H1 & H2 & new & H3 & H4 & _).
      simpl in *. repeat split; auto.
      exists (mkChunk (join [SP] (slice words i (i + chunkSize)))
                      (nextIndex st) 0 :: new).
      split; [rewrite H3, <- app_assoc; reflexivity|]. split.
      * constructor; [simpl; eauto|assumption].
      * discriminate.
  - injection H as <-. repeat split; auto.
    exists []. rewrite app_nil_r. repeat split; auto. lia.
Qed.

Lemma windowCount_last (W chunkSize overlap : Z) :
  overlap < chunkSize -> W <= chunkSize ->
  windowCount W chunkSize overlap = 1%nat.
Proof.
  intros Hs Hw. unfold windowCount.
  rewrite Z.max_r by lia. rewrite Z.div_small by lia. reflexivity.
Qed.

Lemma windowCount_step (W chunkSize overlap : Z) :
  overlap < chunkSize -> chunkSize < W ->
  windowCount W chunkSize overlap
  = S (windowCount (W - (chunkSize - overlap)) chunkSize overlap).
Proof.
  intros Hs Hw. unfold windowCount. f_equal.
  set (step := chunkSize - overlap).
  rewrite Z.max_l by lia.
  destruct (Z.le_gt_cases (W - step - chunkSize) 0) as [Hle|Hgt].
  - rewrite (Z.max_r (W - step - chunkSize)) by lia.
    rewrite (Z.div_small (0 + (step - 1))) by lia.
    replace (W - chunkSize + (step - 1))
      with (1 * step + (W - chunkSize - 1)) by lia.
    rewrite Z.div_add_l by lia.
    rewrite Z.div_small by lia. reflexivity.
  - rewrite (Z.max_l (W - step - chunkSize)) by lia.
    replace (W - chunkSize + (step - 1))
      with (1 * step + (W - step - chunkSize + (step - 1))) by lia.
    rewrite Z.div_add_l by lia.
    assert (0 <= (W - step - chunkSize + (step - 1)) / step)
      by (apply Z.div_pos; lia).
    lia.
Qed.

(** The windows the loop emits from position [i] on, for a positive
    step. *)
Lemma windowLoop_spec (words : list jsstring) (chunkSize overlap : Z) :
  0 <= overlap < chunkSize ->
  forall (fuel : nat) (i : Z) (st : ChunkerState),
    0 <= i < len words ->
    (windowCount (len words - i) chunkSize overlap <= fuel)%nat ->
    windowLoop fuel words chunkSize overlap i st
    = Some (mkState
              (chunks st ++
               map (fun j =>
                      mkChunk
                        (join [SP]
                           (slice words
                              (i + Z.of_nat j * (chunkSize - overlap))
                              (i + Z.of_nat j * (chunkSize - overlap)
                               + chunkSize)))
                        (nextIndex st + Z.of_nat j) 0)
                   (seq 0 (windowCount (len words - i) chunkSize overlap)))
              (currentChunk st) (currentWordCount st)
              (nextIndex st
               + Z.of_nat (windowCount (len words - i) chunkSize overlap))).
Proof.
  intros Hp. induction fuel as [|fuel IH]; intros i st Hi Hfuel.
  - unfold windowCount in Hfuel. lia.
  - cbn [windowLoop].
    destruct (Z.ltb_spec i (len words)) as [_|]; [|lia].
    destruct (Z.geb_spec (i + chunkSize) (len words)) as [Hge|Hlt].
    + rewrite windowCount_last by lia. simpl.
      rewrite !Z.add_0_r. reflexivity.
    + rewrite windowCount_step in * by lia.
      rewrite IH; [|lia|].
      * replace (len words - (i + (chunkSize - overlap)))
          with (len words - i - (chunkSize - overlap)) by lia.
        set (n := windowCount _ _ _).
        cbn [pushChunk chunks currentChunk currentWordCount nextIndex].
        f_equal. f_equal.
        -- rewrite <- app_assoc. f_equal. cbn [app seq map].
           change (Z.of_nat 0) with 0. rewrite !Z.add_0_r. f_equal.
           rewrite <- seq_shift, map_map. apply map_ext. intros j.
           f_equal; [|lia]. f_equal. f_equal; lia.
        -- lia.
      * replace (len words - (i + (chunkSize - overlap)))
          with (len words - i - (chunkSize - overlap)) by lia.
        lia.
Qed.

Lemma windowCount_le (W chunkSize overlap : Z) :
  0 <= overlap < chunkSize -> 1 <= W ->
  Z.of_nat (windowCount W chunkSize overlap) <= W.
Proof.
  intros Hp Hw. unfold windowCount.
  set (x := Z.max (W - chunkSize) 0). set (step := chunkSize - overlap).
  assert (Hx : 0 <= x <= W - 1) by lia.
  assert (Hd : 0 <= (x + (step - 1)) / step <= x).
  { split; [apply Z.div_pos; lia|].
    destruct (Z.eq_dec x 0) as [->|].
    - rewrite Z.div_small; lia.
    - apply Z.lt_succ_r. apply Z.div_lt_upper_bound; nia. }
  lia.
Qed.

Lemma windowLoop_mono (fuel fuel' : nat) (words : list jsstring)
    (chunkSize overlap i : Z) (st st' : ChunkerState) :
  (fuel <= fuel')%nat ->
  windowLoop fuel words chunkSize overlap i st = Some st' ->
  windowLoop fuel' words chunkSize overlap i st = Some st'.
Proof.
  revert fuel' i st. induction fuel as [|fuel IH]; intros fuel' i st Hle H;
    [discriminate|].
  destruct fuel' as [|fuel']; [lia|].
  cbn [windowLoop] in *.
  destruct (i <? len words); [|assumption].
  destruct (i + chunkSize >=? len words); [assumption|].
  apply IH; [lia|assumption].
Qed.

(** With [overlap = chunkSize] the index does not advance: the loop runs
    for as long as it has fuel. *)
Lemma windowLoop_stuck (fuel : nat) (words : list jsstring)
    (chunkSize i : Z) (st : ChunkerState) :
  0 <= chunkSize -> i + chunkSize < len words ->
  windowLoop fuel words chunkSize chunkSize i st = None.
Proof.
  intros Hi Hlt. revert st. induction fuel as [|fuel IH]; intros st;
    [reflexivity|].
  cbn [windowLoop].
  destruct (Z.ltb_spec i (len words)); [|lia].
  destruct (Z.geb_spec (i + chunkSize) (len words)); [lia|].
  replace (i + (chunkSize - chunkSize)) with i by lia. apply IH.
Qed.

(** ** chunkText, by cases *)

Lemma chunkText_blank (fuel : nat) (text : jsstring) (chunkSize overlap : Z) :
  whiteSpaceOnly text -> chunkText fuel text chunkSize overlap = Some [].
Proof.
  intros H. unfold chunkText. apply isBlank_true_iff in H. now rewrite H.
Qed.

(** A text that is not blank is one paragraph: it is either cut into
    sliding windows or emitted whole. *)
Lemma chunkText_nonblank (fuel : nat) (text : jsstring)
    (chunkSize overlap : Z) :
  ~ whiteSpaceOnly text ->
  chunkText fuel text chunkSize overlap
  = if len (wordsOf text) >? chunkSize
    then option_map chunks
           (windowLoop fuel (wordsOf text) chunkSize overlap 0 initialState)
    else Some [mkChunk (cleanText text) 0 0].
Proof.
  intros H. unfold chunkText.
  apply isBlank_false_iff in H as Hb. rewrite Hb.
  rewrite (splitParagraphs_cleanText H).
  cbn [paragraphLoop]. unfold paragraphStep. fold (wordsOf text).
  pose proof (cleanText_Trimmed H) as Ht.
  destruct (len (wordsOf text) >? chunkSize) eqn:Hgt.
  - change (flushPending initialState) with initialState.
    destruct (windowLoop fuel (wordsOf text) chunkSize overlap 0
                initialState) as [st'|] eqn:Hw; [|reflexivity].
    destruct (windowLoop_frame _ _ _ _ _ _ Hw)
      as (Hcc & _ & new & Hch & _ & Hne).
    simpl in Hcc, Hch.
    assert (Hnew : new <> []).
    { apply Hne. pose proof (wordsOf_length text). unfold len. lia. }
    unfold finalFlush. rewrite Hcc. cbn [len length Z.of_nat Z.ltb Z.compare].
    rewrite Hch. destruct new as [|c new']; [congruence|].
    cbn [option_map]. rewrite Hch.
    replace (len (c :: new') =? 0) with false; [reflexivity|].
    symmetry. apply Z.eqb_neq. unfold len. simpl length. lia.
  - cbn [currentWordCount currentChunk chunks nextIndex].
    rewrite Z.add_0_l, Hgt. cbn [andb app].
    rewrite (Trimmed_trim Ht). reflexivity.
Qed.

Lemma window_nonempty (W chunkSize overlap : Z) (j : nat) :
  0 <= overlap < chunkSize -> 1 <= W ->
  (j < windowCount W chunkSize overlap)%nat ->
  0 <= Z.of_nat j * (chunkSize - overlap) < W.
Proof.
  intros Hp Hw Hj. unfold windowCount in Hj.
  set (x := Z.max (W - chunkSize) 0) in *.
  set (step := chunkSize - overlap) in *.
  assert (Hk : 0 <= (x + (step - 1)) / step) by (apply Z.div_pos; lia).
  assert (Hm : step * ((x + (step - 1)) / step) <= x + (step - 1))
    by (apply Z.mul_div_le; lia).
  assert (Hjk : Z.of_nat j <= (x + (step - 1)) / step) by lia.
  split; [nia|].
  assert (Hjs : Z.of_nat j * step <= x + (step - 1)) by nia.
  destruct (Z.le_gt_cases W chunkSize) as [Hle|Hgt].
  - assert (x = 0) by (subst x; lia).
    assert (Z.of_nat j = 0) by nia. nia.
  - assert (x = W - chunkSize) by (subst x; lia). subst step. lia.
Qed.

(** The result of [chunkText] when the window step is positive. *)
Lemma chunkText_result (fuel : nat) (text : jsstring) (chunkSize overlap : Z) :
  0 <= overlap < chunkSize ->
  ~ whiteSpaceOnly text ->
  (length text < fuel)%nat ->
  chunkText fuel text chunkSize overlap
  = Some (if len (wordsOf text) >? chunkSize
          then map (windowChunk (wordsOf text) chunkSize overlap)
                   (seq 0 (windowCount (len (wordsOf text))
                             chunkSize overlap))
          else [mkChunk (cleanText text) 0 0]).
Proof.
  intros Hp Hnb Hfuel. rewrite (chunkText_nonblank _ _ _ Hnb).
  destruct (len (wordsOf text) >? chunkSize); [|reflexivity].
  pose proof (wordsOf_length text) as Hlen.
  rewrite (@windowLoop_spec (wordsOf text) chunkSize overlap Hp).
  - cbn [option_map chunks initialState app nextIndex].
    rewrite Z.sub_0_r. reflexivity.
  - unfold len. lia.
  - rewrite Z.sub_0_r.
    pose proof (@windowCount_le (len (wordsOf text)) chunkSize overlap Hp).
    unfold len in *. lia.
Qed.

Lemma chunkText_fuel_irrelevant (fuel : nat) (text : jsstring)
    (chunkSize overlap : Z) (result : list Chunk) :
  chunkText fuel text chunkSize overlap = Some result ->
  forall fuel', (fuel <= fuel')%nat ->
    chunkText fuel' text chunkSize overlap = Some result.
Proof.
  intros H fuel' Hle.
  destruct (isBlank text) eqn:Hb.
  - apply isBlank_true_iff in Hb.
    rewrite chunkText_blank in * by assumption. assumption.
  - apply isBlank_false_iff in Hb.
    rewrite chunkText_nonblank in * by assumption.
    destruct (len (wordsOf text) >? chunkSize); [|assumption].
    destruct (windowLoop fuel (wordsOf text) chunkSize overlap 0
                initialState) as [st'|] eqn:Hw; [|discriminate].
    now rewrite (windowLoop_mono _ _ _ _ _ Hle Hw).
Qed.

Lemma replaceAll_from_whiteSpaceOnly (pat rep s : jsstring) (skip : nat) :
  whiteSpaceOnly rep -> whiteSpaceOnly s ->
  whiteSpaceOnly (replaceAll_from pat rep s skip).
Proof.
  intros Hrep H. revert skip.
  induction H as [|c t Hc Ht IH]; intros skip; simpl; [constructor|].
  destruct skip; [|apply IH].
  destruct (startsWith pat (c :: t)).
  - apply Forall_app. split; [exact Hrep|apply IH].
  - constructor; [exact Hc|apply IH].
Qed.

Lemma collapse_from_whiteSpaceOnly (s : jsstring) (b : bool) :
  whiteSpaceOnly s -> whiteSpaceOnly (collapse_from s b).
Proof.
  intros H. revert b. induction H as [|c t Hc Ht IH]; intros b; simpl;
    [constructor|].
  rewrite Hc. destruct b; [apply IH|]. constructor; [reflexivity|apply IH].
Qed.

Lemma wordsOf_blank (text : jsstring) :
  whiteSpaceOnly text -> wordsOf text = [[]].
Proof.
  intros H. unfold wordsOf.
  assert (E : cleanText text = []).
  { rewrite cleanText_eq. apply trim_nil_iff.
    apply collapse_from_whiteSpaceOnly, replaceAll_from_whiteSpaceOnly;
      [repeat constructor|exact H]. }
  rewrite E. reflexivity.
Qed.

Lemma whiteSpaceOnly_dec (s : jsstring) :
  {whiteSpaceOnly s} + {~ whiteSpaceOnly s}.
Proof.
  destruct (isBlank s) eqn:E.
  - left. now apply isBlank_true_iff.
  - right. now apply isBlank_false_iff.
Qed.

Lemma windowChunk_indices (words : list jsstring) (chunkSize overlap : Z)
    (n : nat) :
  map chunkIndex (map (windowChunk words chunkSize overlap) (seq 0 n))
  = map Z.of_nat (seq 0 n).
Proof. rewrite map_map. apply map_ext. reflexivity. Qed.

Lemma spacesOnly_word (w : jsstring) : noWhiteSpace w -> spacesOnly w.
Proof.
  unfold noWhiteSpace, spacesOnly. apply Forall_impl. congruence.
Qed.

Lemma window_spacesOnly (words : list jsstring) (a b : Z) :
  Forall isWord words -> spacesOnly (join [SP] (slice words a b)).
Proof.
  intros H. apply join_Forall.
  - constructor; [reflexivity|constructor].
  - apply slice_Forall. revert H. apply Forall_impl.
    intros w [_ Hw]. now apply spacesOnly_word.
Qed.

(** The paragraph loop over any list of paragraphs, for a positive step. *)
Lemma paragraphLoop_terminates (chunkSize overlap : Z) (fuel : nat)
    (paragraphs : list jsstring) (st : ChunkerState) :
  0 <= overlap < chunkSize ->
  Forall (fun p => wordCount p <= Z.of_nat fuel) paragraphs ->
  exists st', paragraphLoop fuel chunkSize overlap paragraphs st = Some st'.
Proof.
  intros Hp H. revert st.
  induction H as [|p ps Hfuel Hps IH]; intros st; simpl; [eauto|].
  assert (Hstep : exists st1,
             paragraphStep fuel chunkSize overlap st p = Some st1).
  { unfold paragraphStep. fold (wordCount p).
    destruct (wordCount p >? chunkSize) eqn:Hgt.
    - rewrite (@windowLoop_spec _ chunkSize overlap Hp); [eauto| |].
      + unfold wordCount in *. lia.
      + rewrite Z.sub_0_r. unfold wordCount in *.
        pose proof (@windowCount_le
                      (len (split isWhiteSpace (trim p)))
                      chunkSize overlap Hp).
        lia.
    - destruct (_ && _); eauto. }
  destruct Hstep as [st1 ->]. apply IH.
Qed.

(** ** Properties of chunkText *)

Lemma chunkText_empty_iff (fuel : nat) (text : jsstring)
    (chunkSize overlap : Z) (result : list Chunk) :
  chunkText fuel text chunkSize overlap = Some result ->
  (result = [] <-> whiteSpaceOnly text).
Proof.
  intros H. destruct (whiteSpaceOnly_dec text) as [Hb|Hnb].
  - rewrite chunkText_blank in H by assumption. injection H as <-.
    split; auto.
  - split; [|contradiction]. intros ->. exfalso.
    rewrite chunkText_nonblank in H by assumption.
    destruct (len (wordsOf text) >? chunkSize); [|discriminate].
    destruct (windowLoop fuel (wordsOf text) chunkSize overlap 0
                initialState) as [st'|] eqn:Hw; [|discriminate].
    destruct (windowLoop_frame _ _ _ _ _ _ Hw)
      as (_ & _ & new & Hch & _ & Hne).
    injection H as H. rewrite H in Hch. simpl in Hch. symmetry in Hch.
    apply Hne; [|exact Hch].
    pose proof (wordsOf_length text). unfold len. lia.
Qed.

(** C4. [chunkText] returns the empty sequence exactly when the text is
    empty or white space only, whatever the chunk size and overlap; with
    the default chunk size and overlap it returns, and for a text that is
    not blank the [chunkIndex] values of the chunks are 0, 1, 2, ... in
    order. *)
Theorem chunkText_empty_iff_blank (text : jsstring) (fuel : nat) :
  (length text < fuel)%nat ->
  (exists result,
     chunkText fuel text defaultChunkSize defaultOverlap = Some result
     /\ (result = [] <-> whiteSpaceOnly text)
     /\ map chunkIndex result = map Z.of_nat (seq 0 (length result)))
  /\ forall fuel' chunkSize overlap result,
       chunkText fuel' text chunkSize overlap = Some result ->
       (result = [] <-> whiteSpaceOnly text).
Proof.
  intros Hfuel. split; [|intros; eapply chunkText_empty_iff; eauto].
  destruct (whiteSpaceOnly_dec text) as [Hb|Hnb].
  - exists []. rewrite chunkText_blank by assumption.
    repeat split; auto.
  - assert (Hr := @chunkText_result fuel text defaultChunkSize defaultOverlap
                    ltac:(unfold defaultChunkSize, defaultOverlap; lia)
                    Hnb Hfuel).
    eexists. split; [exact Hr|].
    split; [eapply chunkText_empty_iff; exact Hr|].
    destruct (len (wordsOf text) >? defaultChunkSize).
    + rewrite length_map, length_seq. apply windowChunk_indices.
    + reflexivity.
Qed.

Lemma chunkText_empty_iff_blank_witness :
  (exists result,
     chunkText 20 (lit "  one two  three "%string)
               defaultChunkSize defaultOverlap = Some result
     /\ (result = [] <-> whiteSpaceOnly (lit "  one two  three "%string))
     /\ map chunkIndex result = map Z.of_nat (seq 0 (length result)))
  /\ forall fuel' chunkSize overlap result,
       chunkText fuel' (lit "  one two  three "%string) chunkSize overlap
       = Some result ->
       (result = [] <-> whiteSpaceOnly (lit "  one two  three "%string)).
Proof.
  apply (@chunkText_empty_iff_blank (lit "  one two  three "%string) 20).
  vm_compute. lia.
Defined.

(** C5. A text of [W] words with [W > 500], chunked with chunk size 500
    and overlap 50, is cut into [ceil (max (W - 500) 0 / 450) + 1]
    sliding windows; window [j] starts at word [450 * j], the last window
    runs to the last word, and no word is left out. *)
Theorem chunkText_window_count (text : jsstring) (fuel : nat) :
  len (wordsOf text) > 500 ->
  (length text < fuel)%nat ->
  let words := wordsOf text in
  let W := len words in
  let K := (Z.max (W - 500) 0 + 449) / 450 in
  450 * (K - 1) < Z.max (W - 500) 0 <= 450 * K
  /\ chunkText fuel text 500 50
     = Some (map (windowChunk words 500 50) (seq 0 (Z.to_nat K + 1)))
  /\ window words 500 50 (Z.to_nat K) = skipn (Z.to_nat (450 * K)) words
  /\ window words 500 50 (Z.to_nat K) <> []
  /\ forall p, 0 <= p < W ->
       exists j, (j <= Z.to_nat K)%nat
                 /\ 450 * Z.of_nat j <= p < 450 * Z.of_nat j + 500.
Proof.
  intros HW Hfuel words W K.
  assert (Hnb : ~ whiteSpaceOnly text).
  { intros Hb. rewrite (wordsOf_blank Hb) in HW. cbv in HW. discriminate. }
  assert (HW' : 500 < W) by (subst W words; lia).
  assert (Hmax : Z.max (W - 500) 0 = W - 500) by lia.
  assert (HK : 450 * (K - 1) < W - 500 <= 450 * K).
  { subst K. rewrite Hmax.
    pose proof (Z.div_mod (W - 500 + 449) 450 ltac:(lia)).
    pose proof (Z.mod_pos_bound (W - 500 + 449) 450 ltac:(lia)). lia. }
  assert (HK0 : 0 <= K) by lia.
  split; [rewrite Hmax; exact HK|]. split; [|split; [|split]].
  - rewrite chunkText_result; [|lia|assumption|assumption].
    fold words W.
    replace (W >? 500) with true by (symmetry; apply Z.gtb_lt; lia).
    unfold windowCount. do 3 f_equal.
    replace (500 - 50 - 1) with 449 by reflexivity.
    replace (500 - 50) with 450 by reflexivity.
    fold K. lia.
  - unfold window. rewrite slice_all_from.
    + f_equal. lia.
    + lia.
    + fold W. lia.
  - unfold window. intros E.
    pose proof (@slice_length_window _ words
                  (Z.of_nat (Z.to_nat K) * (500 - 50)) 500) as Hlen.
    rewrite E in Hlen. unfold len in Hlen at 2. cbn [length] in Hlen.
    fold W in Hlen. lia.
  - intros p Hp.
    destruct (Z.le_gt_cases (p / 450) K) as [Hle|Hgt].
    + exists (Z.to_nat (p / 450)).
      assert (0 <= p / 450) by (apply Z.div_pos; lia).
      pose proof (Z.div_mod p 450 ltac:(lia)).
      pose proof (Z.mod_pos_bound p 450 ltac:(lia)).
      split; lia.
    + exists (Z.to_nat K).
      assert (K * 450 < p).
      { pose proof (Z.div_mod p 450 ltac:(lia)).
        pose proof (Z.mod_pos_bound p 450 ltac:(lia)). nia. }
      split; lia.
Qed.

Lemma chunkText_window_count_witness :
  let words := wordsOf thousandWords in
  let W := len words in
  let K := (Z.max (W - 500) 0 + 449) / 450 in
  450 * (K - 1) < Z.max (W - 500) 0 <= 450 * K
  /\ chunkText 2001 thousandWords 500 50
     = Some (map (windowChunk words 500 50) (seq 0 (Z.to_nat K + 1)))
  /\ window words 500 50 (Z.to_nat K) = skipn (Z.to_nat (450 * K)) words
  /\ window words 500 50 (Z.to_nat K) <> []
  /\ forall p, 0 <= p < W ->
       exists j, (j <= Z.to_nat K)%nat
                 /\ 450 * Z.of_nat j <= p < 450 * Z.of_nat j + 500.
Proof.
  apply (@chunkText_window_count thousandWords 2001).
  - vm_compute. reflexivity.
  - apply Nat.ltb_lt. vm_compute. reflexivity.
Defined.

(** C6. For [chunkSize > overlap >= 0], [chunkText] terminates on every
    text: each sliding-window loop advances by the positive step
    [chunkSize - overlap] and returns, the paragraph loop returns, and
    with them [chunkText] returns, whatever fuel above the length of the
    text it is given. *)
Theorem chunkText_terminates (text : jsstring) (chunkSize overlap : Z) :
  0 <= overlap < chunkSize ->
  (forall words fuel st,
      (length words < fuel)%nat ->
      exists st', windowLoop fuel words chunkSize overlap 0 st = Some st')
  /\ (forall paragraphs fuel st,
         Forall (fun p => wordCount p <= Z.of_nat fuel) paragraphs ->
         exists st',
           paragraphLoop fuel chunkSize overlap paragraphs st = Some st')
  /\ exists result,
       forall fuel, (length text < fuel)%nat ->
         chunkText fuel text chunkSize overlap = Some result.
Proof.
  intros Hp. split; [|split].
  - intros words fuel st Hfuel.
    destruct words as [|w ws].
    + destruct fuel; [lia|]. simpl. eauto.
    + rewrite (@windowLoop_spec _ chunkSize overlap Hp); [eauto| |].
      * unfold len. simpl length. lia.
      * rewrite Z.sub_0_r.
        pose proof (@windowCount_le (len (w :: ws)) chunkSize overlap Hp).
        unfold len in *. simpl length in *. lia.
  - intros paragraphs fuel st H. now apply paragraphLoop_terminates.
  - destruct (whiteSpaceOnly_dec text) as [Hb|Hnb].
    + exists []. intros fuel _. now apply chunkText_blank.
    + eexists. intros fuel Hfuel. now apply chunkText_result.
Qed.

Lemma chunkText_terminates_witness :
  (forall words fuel st,
      (length words < fuel)%nat ->
      exists st', windowLoop fuel words 3 1 0 st = Some st')
  /\ (forall paragraphs fuel st,
         Forall (fun p => wordCount p <= Z.of_nat fuel) paragraphs ->
         exists st', paragraphLoop fuel 3 1 paragraphs st = Some st')
  /\ exists result,
       forall fuel, (length (lit "a b c d e f g"%string) < fuel)%nat ->
         chunkText fuel (lit "a b c d e f g"%string) 3 1 = Some result.
Proof.
  apply (@chunkText_terminates (lit "a b c d e f g"%string) 3 1). lia.
Defined.

(** C7. For [chunkSize > overlap >= 0], no chunk that [chunkText] returns
    has more than [chunkSize] words; in particular no sliding-window chunk
    has. *)
Theorem chunkText_wordCount_bound (text : jsstring) (chunkSize overlap : Z)
    (fuel : nat) (result : list Chunk) :
  0 <= overlap < chunkSize ->
  chunkText fuel text chunkSize overlap = Some result ->
  Forall (fun c => wordCount (content c) <= chunkSize) result.
Proof.
  intros Hp H.
  destruct (whiteSpaceOnly_dec text) as [Hb|Hnb].
  - rewrite chunkText_blank in H by assumption. injection H as <-.
    constructor.
  - assert (H' := @chunkText_fuel_irrelevant _ _ _ _ _ H
                     (Nat.max fuel (S (length text))) ltac:(lia)).
    rewrite chunkText_result in H'; [|assumption|assumption|lia].
    remember (windowCount (len (wordsOf text)) chunkSize overlap) as n
      eqn:Hn.
    injection H' as <-.
    destruct (Z.gtb_spec (len (wordsOf text)) chunkSize) as [Hgt|Hle].
    + apply Forall_forall. intros c Hin.
      apply in_map_iff in Hin as (j & <- & Hj). apply in_seq in Hj.
      subst n.
      pose proof (wordsOf_length text) as Hlen.
      pose proof (@window_nonempty (len (wordsOf text)) chunkSize overlap j
                    Hp ltac:(unfold len; lia) ltac:(lia)) as Hw.
      pose proof (@slice_length_window _ (wordsOf text)
                    (Z.of_nat j * (chunkSize - overlap)) chunkSize
                    Hw ltac:(lia)) as Hsl.
      unfold windowChunk, window. cbn [content].
      rewrite wordCount_join.
      * lia.
      * intros E. rewrite E in Hsl. unfold len in Hsl at 1.
        simpl in Hsl. lia.
      * apply slice_Forall. now apply wordsOf_words.
    + constructor; [|constructor]. cbn [content].
      unfold wordCount. fold (wordsOf text). exact Hle.
Qed.

Lemma chunkText_wordCount_bound_witness :
  Forall (fun c => wordCount (content c) <= 3)
    [mkChunk (lit "a b c"%string) 0 0; mkChunk (lit "c d e"%string) 1 0;
     mkChunk (lit "e f g"%string) 2 0].
Proof.
  apply (@chunkText_wordCount_bound (lit "a b c d e f g"%string) 3 1 10).
  - lia.
  - vm_compute. reflexivity.
Defined.

(** C10. No chunk that [chunkText] returns has a newline in its content,
    whatever the parameters: [replace(/\s+/g, " ")] turns every run of
    white space, newlines included, into one space, so the cleaned text
    has no newline, the paragraph split gives the cleaned text as its only
    paragraph, and a chunk is that paragraph or a window of its words
    joined by spaces. *)
Theorem chunkText_no_newline (text : jsstring) (chunkSize overlap : Z)
    (fuel : nat) (result : list Chunk) :
  chunkText fuel text chunkSize overlap = Some result ->
  ~ In LF (cleanText text)
  /\ (~ whiteSpaceOnly text ->
      splitParagraphs (cleanText text) = [cleanText text])
  /\ Forall (fun c => ~ In LF (content c) /\ spacesOnly (content c)) result.
Proof.
  intros H. split; [|split].
  - apply spacesOnly_no_LF, cleanText_spacesOnly.
  - apply splitParagraphs_cleanText.
  - assert (Hs : Forall (fun c => spacesOnly (content c)) result).
    { destruct (whiteSpaceOnly_dec text) as [Hb|Hnb].
      - rewrite chunkText_blank in H by assumption. injection H as <-.
        constructor.
      - rewrite chunkText_nonblank in H by assumption.
        destruct (len (wordsOf text) >? chunkSize).
        + destruct (windowLoop fuel (wordsOf text) chunkSize overlap 0
                      initialState) as [st'|] eqn:Hw; [|discriminate].
          injection H as <-.
          destruct (windowLoop_frame _ _ _ _ _ _ Hw)
            as (_ & _ & new & Hch & Hnew & _).
          rewrite Hch. simpl. revert Hnew. apply Forall_impl.
          intros c (a & b & ->). apply window_spacesOnly.
          now apply wordsOf_words.
        + injection H as <-. constructor; [|constructor].
          apply cleanText_spacesOnly. }
    revert Hs. apply Forall_impl. intros c Hc. split; [|exact Hc].
    now apply spacesOnly_no_LF.
Qed.

Lemma chunkText_no_newline_witness :
  Forall (fun c => ~ In LF (content c) /\ spacesOnly (content c))
    [mkChunk (lit "Paris is big. Berlin is cold."%string) 0 0].
Proof.
  apply (@chunkText_no_newline
           (lit "Paris is big."%string ++ [LF; LF]
            ++ lit "Berlin is cold."%string)
           500 50 40).
  vm_compute. reflexivity.
Defined.

(** C1. The text of two paragraphs [Paris is the capital of France.] and
    [Berlin is the capital of Germany.], separated by a blank line and
    chunked with chunk size 500 and overlap 50, gives one chunk; its
    content has the two paragraphs joined by one space, not by the
    double newline of [currentChunk.join]. *)
Theorem chunkText_two_paragraphs :
  let p1 := lit "Paris is the capital of France."%string in
  let p2 := lit "Berlin is the capital of Germany."%string in
  let text := p1 ++ [LF; LF] ++ p2 in
  chunkText (S (length text)) text 500 50
  = Some [mkChunk (p1 ++ [SP] ++ p2) 0 0]
  /\ p1 ++ [SP] ++ p2 <> join [LF; LF] [p1; p2]
  /\ wordCount p1 + wordCount p2 <= 500.
Proof.
  cbv zeta. split; [vm_compute; reflexivity|].
  split; [vm_compute; discriminate|vm_compute; discriminate].
Qed.

(** ** Array.prototype.sort *)

Section SortLemmas.

Variable A : Type.
Variable cmp : A -> A -> option Z.

Lemma insertSorted_length (x : A) (l : list A) :
  length (insertSorted cmp x l) = S (length l).
Proof.
  induction l as [|y t IH]; simpl; [reflexivity|].
  destruct (comesAfter cmp x y); simpl; congruence.
Qed.

Lemma sort_length (l : list A) : length (sort cmp l) = length l.
Proof.
  induction l as [|x t IH]; simpl; [reflexivity|].
  rewrite insertSorted_length. congruence.
Qed.

Lemma insertSorted_In (x z : A) (l : list A) :
  In z (insertSorted cmp x l) <-> z = x \/ In z l.
Proof.
  induction l as [|y t IH]; simpl.
  - intuition congruence.
  - destruct (comesAfter cmp x y); simpl; rewrite ?IH; intuition congruence.
Qed.

Lemma sort_In (z : A) (l : list A) : In z (sort cmp l) <-> In z l.
Proof.
  induction l as [|x t IH]; simpl; [reflexivity|].
  rewrite insertSorted_In, IH. intuition congruence.
Qed.

(** Elements of a class whose members never move behind one another keep
    their order: the sort is stable. *)
Lemma insertSorted_filter (P : A -> bool) (x : A) (l : list A) :
  (forall y, In y l -> P x = true -> P y = true ->
             comesAfter cmp x y = false) ->
  filter P (insertSorted cmp x l) = filter P (x :: l).
Proof.
  induction l as [|y t IH]; intros H; [reflexivity|].
  cbn [insertSorted]. destruct (comesAfter cmp x y) eqn:E; [|reflexivity].
  cbn [filter] in *. rewrite IH by (intros; apply H; simpl; auto).
  destruct (P x) eqn:Px; [|reflexivity].
  destruct (P y) eqn:Py; [|reflexivity].
  rewrite H in E; simpl; auto. discriminate.
Qed.

Lemma sort_filter (P : A -> bool) (l : list A) :
  (forall x y, P x = true -> P y = true -> comesAfter cmp x y = false) ->
  filter P (sort cmp l) = filter P l.
Proof.
  intros H. induction l as [|x t IH]; [reflexivity|].
  cbn [sort]. rewrite insertSorted_filter by (intros; now apply H).
  cbn [filter]. now rewrite IH.
Qed.

Lemma sort_id (l : list A) :
  (forall x y, In x l -> In y l -> comesAfter cmp x y = false) ->
  sort cmp l = l.
Proof.
  induction l as [|x t IH]; intros H; [reflexivity|].
  cbn [sort]. rewrite IH by (intros; apply H; simpl; auto).
  destruct t as [|y t']; [reflexivity|].
  cbn [insertSorted]. rewrite H; simpl; auto.
Qed.

(** The result is sorted when the comparator is a total preorder on the
    elements of the list. *)
Lemma insertSorted_sorted (R : A -> A -> Prop) (x : A) (l : list A) :
  (forall y, In y l -> comesAfter cmp x y = true -> R y x) ->
  (forall y, In y l -> comesAfter cmp x y = false -> R x y) ->
  (forall y z, In y l -> In z l -> R x y -> R y z -> R x z) ->
  StronglySorted R l -> StronglySorted R (insertSorted cmp x l).
Proof.
  intros Hafter Hbefore Htrans Hs.
  induction Hs as [|y t Ht IH Hy]; simpl.
  - repeat constructor.
  - destruct (comesAfter cmp x y) eqn:E.
    + constructor.
      * apply IH.
        -- intros; apply Hafter; simpl; auto.
        -- intros; apply Hbefore; simpl; auto.
        -- intros y' z' Hy' Hz'. apply Htrans; simpl; auto.
      * apply Forall_forall. intros z Hz.
        apply insertSorted_In in Hz as [->|Hz].
        -- apply Hafter; simpl; auto.
        -- rewrite Forall_forall in Hy. auto.
    + constructor; [constructor; assumption|].
      assert (Hxy : R x y) by (apply Hbefore; simpl; auto).
      constructor; [exact Hxy|].
      apply Forall_forall. intros z Hz.
      rewrite Forall_forall in Hy.
      apply (Htrans y z); simpl; auto.
Qed.

End SortLemmas.

Lemma slice_prefix {A : Type} (l : list A) (k : Z) :
  exists n, slice l 0 k = firstn n l.
Proof.
  unfold slice, sliceIndex. simpl.
  replace (Z.min 0 (Z.of_nat (length l))) with 0 by lia.
  eexists. reflexivity.
Qed.

Lemma slice_firstn {A : Type} (l : list A) (k : Z) :
  0 <= k -> slice l 0 k = firstn (Z.to_nat k) l.
Proof.
  intros Hk. unfold slice, sliceIndex. simpl.
  replace (Z.min 0 (Z.of_nat (length l))) with 0 by lia.
  destruct (Z.ltb_spec k 0); [lia|]. simpl. rewrite Z.sub_0_r.
  destruct (Z.le_gt_cases k (Z.of_nat (length l))).
  - now rewrite Z.min_l by lia.
  - rewrite Z.min_r by lia. rewrite Nat2Z.id.
    rewrite firstn_all. symmetry. apply firstn_all2. lia.
Qed.

Lemma slice_length_topK {A : Type} (l : list A) (k : Z) :
  0 <= k -> len (slice l 0 k) = Z.min k (len l).
Proof.
  intros Hk. rewrite slice_firstn by assumption.
  unfold len. rewrite length_firstn. lia.
Qed.

Lemma slice_map {A B : Type} (f : A -> B) (l : list A) (i j : Z) :
  slice (map f l) i j = map f (slice l i j).
Proof.
  unfold slice. rewrite length_map, skipn_map, firstn_map. reflexivity.
Qed.

Lemma filter_firstn_prefix {A : Type} (P : A -> bool) (n : nat) (l : list A) :
  exists rest, filter P l = filter P (firstn n l) ++ rest.
Proof.
  exists (filter P (skipn n l)).
  rewrite <- filter_app. now rewrite firstn_skipn.
Qed.

Lemma StronglySorted_firstn {A : Type} (R : A -> A -> Prop) (n : nat)
    (l : list A) :
  StronglySorted R l -> StronglySorted R (firstn n l).
Proof.
  intros H. revert n. induction H as [|x t Ht IH Hx]; intros n.
  - rewrite firstn_nil. constructor.
  - destruct n; simpl; constructor; [apply IH|now apply Forall_take].
Qed.

(** ** The ranker: scores and candidates *)

Lemma comesAfter_same_score (v : option Z) (x y : RankedChunk) :
  hasScore v x = true -> hasScore v y = true ->
  comesAfter compareScore x y = false.
Proof.
  unfold hasScore, comesAfter, compareScore.
  destruct (score x) as [sx|], (score y) as [sy|], v as [s|];
    try discriminate; try reflexivity.
  intros Hx Hy. apply Z.eqb_eq in Hx, Hy. subst.
  apply Z.ltb_ge. lia.
Qed.

Lemma sort_unscored (l : list RankedChunk) :
  Forall (fun e => score e = None) l -> sort compareScore l = l.
Proof.
  intros H. apply sort_id. intros x y Hx _.
  rewrite Forall_forall in H. unfold comesAfter, compareScore.
  rewrite (H x Hx). now destruct (score y).
Qed.

Lemma sort_scored_sorted (l : list RankedChunk) :
  Forall (fun e => exists v, score e = Some v) l ->
  StronglySorted scoreGe (sort compareScore l).
Proof.
  intros H. induction H as [|x t [vx Hx] Ht IH]; simpl; [constructor|].
  assert (Hall : forall y, In y (sort compareScore t) ->
                           exists vy, score y = Some vy).
  { intros y Hy. apply sort_In in Hy. rewrite Forall_forall in Ht. auto. }
  apply insertSorted_sorted; [| | |exact IH].
  - intros y Hy. destruct (Hall y Hy) as [vy Hvy].
    unfold comesAfter, compareScore, scoreGe. rewrite Hx, Hvy.
    intros E. apply Z.ltb_lt in E. lia.
  - intros y Hy. destruct (Hall y Hy) as [vy Hvy].
    unfold comesAfter, compareScore, scoreGe. rewrite Hx, Hvy.
    intros E. apply Z.ltb_ge in E. lia.
  - intros y z Hy Hz. destruct (Hall y Hy) as [vy Hvy].
    destruct (Hall z Hz) as [vz Hvz].
    unfold scoreGe. rewrite Hx, Hvy, Hvz. lia.
Qed.

Lemma unscored_sorted (l : list RankedChunk) :
  Forall (fun e => score e = None) l -> StronglySorted scoreGe l.
Proof.
  intros H. induction H as [|x t Hx Ht IH]; constructor; [exact IH|].
  apply Forall_forall. intros y _. unfold scoreGe. now rewrite Hx.
Qed.

Lemma map_unscored_None (chunks : list Chunk) :
  Forall (fun e => score e = None) (map unscored chunks).
Proof. apply Forall_forall. intros e Hin. apply in_map_iff in Hin as (c & <- & _). reflexivity. Qed.

Section RankerLemmas.

Variable toLowerCase : jsstring -> jsstring.
Variable regExpMatchCount : jsstring -> jsstring -> Outcome Z.

Lemma scoreChunks_shape (words : list jsstring) (chunks : list Chunk)
    (scored : list RankedChunk) :
  scoreChunks toLowerCase regExpMatchCount words chunks = Returns scored ->
  map base scored = chunks
  /\ Forall (fun e => exists v, score e = Some v) scored.
Proof.
  revert scored. induction chunks as [|c cs IH]; intros scored H; simpl in H.
  - injection H as <-. split; constructor.
  - destruct (scoreContent _ _ _ 0) as [v| |]; try discriminate.
    destruct (scoreChunks _ _ _ cs) as [rest| |]; try discriminate.
    injection H as <-. destruct (IH rest eq_refl) as [Hb Hs].
    split; [simpl; congruence|]. constructor; [simpl; eauto|exact Hs].
Qed.

Lemma scoreContent_zero (words : list jsstring) (text : jsstring) (acc : Z) :
  (forall w, In w words -> regExpMatchCount w text = Returns 0) ->
  scoreContent regExpMatchCount words text acc = Returns acc.
Proof.
  revert acc. induction words as [|w ws IH]; intros acc H; [reflexivity|].
  simpl. rewrite H by (simpl; auto). rewrite Z.add_0_r.
  apply IH. intros; apply H; simpl; auto.
Qed.

Lemma scoreChunks_zero (words : list jsstring) (chunks : list Chunk) :
  (forall c w, In c chunks -> In w words ->
     regExpMatchCount w (toLowerCase (content c)) = Returns 0) ->
  scoreChunks toLowerCase regExpMatchCount words chunks
  = Returns (map (fun c => mkRanked c (Some 0)) chunks).
Proof.
  induction chunks as [|c cs IH]; intros H; [reflexivity|].
  simpl. rewrite scoreContent_zero by (intros; apply H; simpl; auto).
  rewrite IH by (intros; apply H; simpl; auto). reflexivity.
Qed.

Lemma selectCandidates_cases (scored : list RankedChunk)
    (chunks : list Chunk) :
  (selectCandidates scored chunks = filter hasPositiveScore scored
   /\ filter hasPositiveScore scored <> [])
  \/ (selectCandidates scored chunks = map unscored chunks
      /\ filter hasPositiveScore scored = []).
Proof.
  unfold selectCandidates.
  destruct (filter hasPositiveScore scored) as [|e l] eqn:E.
  - right. split; reflexivity.
  - left. split; [reflexivity|discriminate].
Qed.

Lemma selectCandidates_sorted (scored : list RankedChunk)
    (chunks : list Chunk) :
  Forall (fun e => exists v, score e = Some v) scored ->
  StronglySorted scoreGe (sort compareScore (selectCandidates scored chunks)).
Proof.
  intros H.
  destruct (selectCandidates_cases scored chunks) as [[-> _]|[-> _]].
  - apply sort_scored_sorted. rewrite Forall_forall in *.
    intros e He. apply filter_In in He as [He _]. auto.
  - rewrite sort_unscored by apply map_unscored_None.
    apply unscored_sorted, map_unscored_None.
Qed.

End RankerLemmas.

(** ** RegExp on a word without syntax characters *)

Section PlainWords.

Variable canonicalize : N -> N.

Lemma plain_char (c : N) :
  isSyntaxCharacter c = false ->
  RegExp.outsideFragment c = false
  /\ RegExp.isQuantifier c = false
  /\ (c =? RegExp.cLPAREN)%N = false
  /\ (c =? RegExp.cRPAREN)%N = false
  /\ (c =? RegExp.cBAR)%N = false
  /\ (c =? RegExp.cDOT)%N = false.
Proof.
  unfold isSyntaxCharacter. intros H.
  apply orb_false_iff in H as [H H6]. apply orb_false_iff in H as [H H5].
  apply orb_false_iff in H as [H H4]. apply orb_false_iff in H as [H H3].
  apply orb_false_iff in H as [H1 H2]. repeat split; assumption.
Qed.

Lemma parseQuantifier_plain (atom : RegExp.regex) (s : jsstring) :
  Forall (fun c => isSyntaxCharacter c = false) s ->
  RegExp.parseQuantifier atom s = Returns (atom, s).
Proof.
  intros H. destruct H as [|q t Hq Ht]; [reflexivity|].
  apply plain_char in Hq as (_ & Hq & _). simpl. now rewrite Hq.
Qed.

Lemma parseAlternative_plain
    (parseGroup : jsstring -> Outcome (RegExp.regex * jsstring))
    (w : jsstring) :
  Forall (fun c => isSyntaxCharacter c = false) w ->
  forall n acc, (length w < n)%nat ->
    RegExp.parseAlternative parseGroup n acc w
    = Returns (fold_left (fun acc c => RegExp.Seq acc (RegExp.Char c)) w acc,
               []).
Proof.
  intros H. induction H as [|c t Hc Ht IH]; intros n acc Hn.
  - destruct n; [lia|reflexivity].
  - destruct n; [simpl in Hn; lia|].
    apply plain_char in Hc as (_ & Hq & Hl & Hr & Hb & Hd).
    cbn [RegExp.parseAlternative]. rewrite Hb, Hr, Hq, Hl, Hd. cbn [orb].
    rewrite parseQuantifier_plain by assumption.
    apply IH. simpl in Hn. lia.
Qed.

Lemma parsePattern_plain (w : jsstring) :
  Forall (fun c => isSyntaxCharacter c = false) w ->
  RegExp.parsePattern w = Returns (literalPattern w).
Proof.
  intros H. unfold RegExp.parsePattern.
  replace (existsb RegExp.outsideFragment w) with false.
  - cbn [RegExp.parseDisjunction].
    rewrite parseAlternative_plain by (auto; lia). reflexivity.
  - symmetry. clear - H. induction H as [|c t Hc Ht IH]; [reflexivity|].
    apply plain_char in Hc as (Hc & _). simpl. now rewrite Hc.
Qed.

Lemma matchRe_fold (w : jsstring) :
  forall acc s k,
    RegExp.matchRe canonicalize
      (fold_left (fun acc c => RegExp.Seq acc (RegExp.Char c)) w acc) s k
    = RegExp.matchRe canonicalize acc s
        (fun s' => matchLiteral canonicalize w s' k).
Proof.
  induction w as [|c w' IH]; intros acc s k; [reflexivity|].
  cbn [fold_left]. rewrite IH. reflexivity.
Qed.

Lemma matchLiteral_occursAt (w s : jsstring) :
  matchLiteral canonicalize w s (fun e => Some e)
  = if occursAt canonicalize w s then Some (skipn (length w) s) else None.
Proof.
  revert s. induction w as [|c w' IH]; intros s; [reflexivity|].
  destruct s as [|d t]; [reflexivity|].
  cbn [matchLiteral occursAt length skipn].
  destruct (canonicalize d =? canonicalize c)%N; [apply IH|reflexivity].
Qed.

Lemma matchRe_literalPattern (w s : jsstring) :
  RegExp.matchRe canonicalize (literalPattern w) s (fun e => Some e)
  = if occursAt canonicalize w s then Some (skipn (length w) s) else None.
Proof.
  unfold literalPattern. rewrite matchRe_fold. cbn [RegExp.matchRe].
  apply matchLiteral_occursAt.
Qed.

Lemma occursAt_length (w s : jsstring) :
  occursAt canonicalize w s = true -> (length w <= length s)%nat.
Proof.
  revert s. induction w as [|c w' IH]; intros s H; simpl; [lia|].
  destruct s as [|d t]; [discriminate|].
  simpl in H. apply andb_true_iff in H as [_ H]. apply IH in H.
  simpl. lia.
Qed.

Lemma literalOccurrences_from_skip (w s : jsstring) (k : nat) :
  literalOccurrences_from canonicalize w s k
  = literalOccurrences_from canonicalize w (skipn k s) 0.
Proof.
  revert k. induction s as [|c t IH]; intros k.
  - now rewrite skipn_nil.
  - destruct k as [|k]; [reflexivity|]. cbn [skipn]. rewrite <- IH.
    reflexivity.
Qed.

Lemma countMatches_literal (w : jsstring) :
  w <> [] ->
  forall fuel s, (length s < fuel)%nat ->
    Z.of_nat (RegExp.countMatches canonicalize fuel (literalPattern w) s)
    = literalOccurrences canonicalize w s.
Proof.
  intros Hw. unfold literalOccurrences.
  induction fuel as [|fuel IH]; intros s Hfuel; [lia|].
  cbn [RegExp.countMatches]. rewrite matchRe_literalPattern.
  destruct s as [|c t].
  - destruct w; [congruence|reflexivity].
  - cbn [literalOccurrences_from].
    destruct (occursAt canonicalize w (c :: t)) eqn:E.
    + pose proof (occursAt_length _ _ E) as Hlen.
      assert (Hpos : (0 < length w)%nat)
        by (destruct w; [congruence|simpl; lia]).
      assert (Hsk : skipn (length w) (c :: t) = skipn (pred (length w)) t).
      { destruct (length w); [lia|reflexivity]. }
      assert (Hlt : (length (skipn (length w) (c :: t)) < length (c :: t))%nat).
      { rewrite length_skipn. cbn [length] in *. lia. }
      rewrite (proj2 (Nat.ltb_lt _ _) Hlt).
      rewrite Nat2Z.inj_succ.
      rewrite IH by (cbn [length] in Hlt, Hfuel; clear - Hlt Hfuel; lia).
      rewrite (literalOccurrences_from_skip w t (pred (length w))), Hsk.
      lia.
    + apply IH. simpl in Hfuel. lia.
Qed.

(** For a word without syntax characters, the count that the code takes
    through [RegExp] is the number of literal occurrences of the word. *)
Lemma matchCount_plainWord (w text : jsstring) :
  plainWord w ->
  RegExp.matchCount canonicalize w text
  = Returns (literalOccurrences canonicalize w text).
Proof.
  intros [Hne Hplain]. unfold RegExp.matchCount.
  rewrite parsePattern_plain by assumption.
  rewrite countMatches_literal by (auto; lia). reflexivity.
Qed.

(** With plain query words only, the score of a chunk is the sum of the
    literal occurrences of the words, and nothing is thrown. *)
Lemma scoreContent_plainWords (words : list jsstring) (text : jsstring)
    (acc : Z) :
  Forall plainWord words ->
  scoreContent (RegExp.matchCount canonicalize) words text acc
  = Returns (fold_left
               (fun a w => a + literalOccurrences canonicalize w text)
               words acc).
Proof.
  intros H. revert acc. induction H as [|w ws Hw Hws IH]; intros acc;
    [reflexivity|].
  cbn [scoreContent fold_left]. rewrite matchCount_plainWord by assumption.
  apply IH.
Qed.

End PlainWords.

(** ** Properties of findRelevantChunks *)

(** C9. When the chunk list is empty or the query is empty,
    [findRelevantChunks] returns the empty sequence and raises nothing,
    whatever [topK] is. *)
Theorem findRelevantChunks_empty_input
    (toLowerCase : jsstring -> jsstring)
    (regExpMatchCount : jsstring -> jsstring -> Outcome Z)
    (chunks : list Chunk) (query : jsstring) (topK : Z) :
  chunks = [] \/ query = [] ->
  findRelevantChunks toLowerCase regExpMatchCount chunks query topK
  = Returns [].
Proof.
  intros [-> | ->]; unfold findRelevantChunks.
  - reflexivity.
  - change (len (@nil N) =? 0) with true. now rewrite orb_true_r.
Qed.

Lemma findRelevantChunks_empty_input_witness :
  findRelevantChunksWith asciiToLowerCase asciiCanonicalize
    [mkChunk (lit "Paris is great"%string) 0 0] [] 5
  = Returns [].
Proof.
  apply findRelevantChunks_empty_input. right. reflexivity.
Defined.

(** C2, as stated, fails: for the chunks [Paris is great] and
    [Berlin is cold] and the query [capital of France], two query words
    survive and match nowhere, and the entry returned is the first chunk
    as it was given, with no score. *)
Lemma findRelevantChunks_fallback_unscored :
  let chunks := parisBerlin in
  let query := lit "capital of France"%string in
  queryWords asciiToLowerCase query
  = [lit "capital"%string; lit "france"%string]
  /\ (forall c w, In c chunks -> In w (queryWords asciiToLowerCase query) ->
        RegExp.matchCount asciiCanonicalize w
          (asciiToLowerCase (content c)) = Returns 0)
  /\ exists out,
       findRelevantChunksWith asciiToLowerCase asciiCanonicalize
         chunks query 1 = Returns out
       /\ ~ Forall carriesScore out.
Proof.
  cbv zeta. split; [vm_compute; reflexivity|]. split.
  - intros c w [<-|[<-|[]]] [<-|[<-|[]]]; vm_compute; reflexivity.
  - eexists. split; [vm_compute; reflexivity|].
    intros H. inversion H as [|e l [v [Hv _]] _]; subst. discriminate.
Qed.

(** C2, amended.  When at least one query word survives the filter and no
    surviving word matches in any chunk, [findRelevantChunks] returns
    [chunks.slice(0, topK)], the first [topK] entries of the chunk list in
    their original order, as they were given: no score is added to
    them. *)
Theorem findRelevantChunks_fallback
    (toLowerCase : jsstring -> jsstring)
    (regExpMatchCount : jsstring -> jsstring -> Outcome Z)
    (chunks : list Chunk) (query : jsstring) (topK : Z) :
  chunks <> [] -> query <> [] ->
  queryWords toLowerCase query <> [] ->
  (forall c w, In c chunks -> In w (queryWords toLowerCase query) ->
     regExpMatchCount w (toLowerCase (content c)) = Returns 0) ->
  findRelevantChunks toLowerCase regExpMatchCount chunks query topK
  = Returns (map unscored (slice chunks 0 topK))
  /\ (0 <= topK -> slice chunks 0 topK = firstn (Z.to_nat topK) chunks)
  /\ Forall (fun e => score e = None) (map unscored (slice chunks 0 topK)).
Proof.
  intros Hc Hq Hw Hzero.
  split; [|split; [apply slice_firstn|apply map_unscored_None]].
  unfold findRelevantChunks.
  replace (len chunks =? 0) with false
    by (destruct chunks; [congruence|reflexivity]).
  replace (len query =? 0) with false
    by (destruct query; [congruence|reflexivity]).
  cbn [orb].
  replace (len (queryWords toLowerCase query) =? 0) with false
    by (destruct (queryWords toLowerCase query); [congruence|reflexivity]).
  rewrite scoreChunks_zero by assumption.
  unfold selectCandidates.
  replace (filter hasPositiveScore
             (map (fun c => mkRanked c (Some 0)) chunks)) with (@nil RankedChunk).
  - cbn [len length Z.of_nat Z.gtb Z.compare].
    rewrite sort_unscored by apply map_unscored_None.
    now rewrite slice_map.
  - clear. induction chunks as [|c cs IH]; [reflexivity|exact IH].
Qed.

Lemma findRelevantChunks_fallback_witness :
  findRelevantChunksWith asciiToLowerCase asciiCanonicalize
    parisBerlin (lit "capital of France"%string) 1
  = Returns (map unscored (slice parisBerlin 0 1))
  /\ (0 <= 1 -> slice parisBerlin 0 1 = firstn (Z.to_nat 1) parisBerlin)
  /\ Forall (fun e => score e = None) (map unscored (slice parisBerlin 0 1)).
Proof.
  apply (@findRelevantChunks_fallback asciiToLowerCase
           (RegExp.matchCount asciiCanonicalize)
           parisBerlin (lit "capital of France"%string) 1).
  - discriminate.
  - discriminate.
  - vm_compute. discriminate.
  - intros c w Hc Hw. vm_compute in Hc, Hw.
    destruct Hc as [<-|[<-|[]]];
      destruct Hw as [<-|[<-|[]]]; vm_compute; reflexivity.
Defined.

(** C8. Whenever [findRelevantChunks] returns, its output is a prefix of
    the candidates sorted by score: no entry has a higher score than an
    entry before it, entries of equal score are in the order they have
    among the candidates, which is the order of the input, and for a
    [topK] that is not negative the output has [min topK n] entries, [n]
    the number of candidates. *)
Theorem findRelevantChunks_sorted_stable
    (toLowerCase : jsstring -> jsstring)
    (regExpMatchCount : jsstring -> jsstring -> Outcome Z)
    (chunks : list Chunk) (query : jsstring) (topK : Z)
    (out : list RankedChunk) :
  findRelevantChunks toLowerCase regExpMatchCount chunks query topK
  = Returns out ->
  exists cands,
    candidates toLowerCase regExpMatchCount chunks query = Returns cands
    /\ (exists decorated keep,
          map base decorated = chunks /\ cands = filter keep decorated)
    /\ StronglySorted scoreGe out
    /\ (forall v, exists rest,
          filter (hasScore v) cands = filter (hasScore v) out ++ rest)
    /\ (0 <= topK -> len out = Z.min topK (len cands)).
Proof.
  unfold findRelevantChunks, candidates. intros H.
  destruct ((len chunks =? 0) || (len query =? 0)).
  - injection H as <-. exists []. split; [reflexivity|]. split.
    + exists (map unscored chunks), (fun _ => false). split.
      * rewrite map_map. apply map_id.
      * clear. induction chunks; simpl; auto.
    + split; [constructor|]. split.
      * intros v. exists []. reflexivity.
      * intros Hk. unfold len. simpl. lia.
  - destruct (len (queryWords toLowerCase query) =? 0).
    + injection H as <-. exists (map unscored chunks).
      split; [reflexivity|]. split.
      * exists (map unscored chunks), (fun _ => true). split.
        -- rewrite map_map. apply map_id.
        -- clear. induction chunks; simpl; congruence.
      * rewrite <- slice_map. split; [|split].
        -- destruct (slice_prefix (map unscored chunks) topK) as [n ->].
           apply StronglySorted_firstn, unscored_sorted, map_unscored_None.
        -- intros v.
           destruct (slice_prefix (map unscored chunks) topK) as [n ->].
           apply filter_firstn_prefix.
        -- intros Hk. now apply slice_length_topK.
    + destruct (scoreChunks toLowerCase regExpMatchCount
                  (queryWords toLowerCase query) chunks)
        as [scored| |] eqn:Hs; try discriminate.
      injection H as <-.
      destruct (scoreChunks_shape _ _ _ _ Hs) as [Hbase Hsome].
      exists (selectCandidates scored chunks).
      split; [reflexivity|]. split; [|split; [|split]].
      * destruct (selectCandidates_cases scored chunks) as [[-> _]|[-> _]].
        -- exists scored, hasPositiveScore. split; [assumption|reflexivity].
        -- exists (map unscored chunks), (fun _ => true). split.
           ++ rewrite map_map. apply map_id.
           ++ clear. induction chunks; simpl; congruence.
      * destruct (slice_prefix
                    (sort compareScore (selectCandidates scored chunks)) topK)
          as [n ->].
        apply StronglySorted_firstn. now apply selectCandidates_sorted.
      * intros v.
        destruct (slice_prefix
                    (sort compareScore (selectCandidates scored chunks)) topK)
          as [n ->].
        rewrite <- (@sort_filter _ compareScore (hasScore v)
                      (selectCandidates scored chunks)).
        -- apply filter_firstn_prefix.
        -- intros x y. apply comesAfter_same_score.
      * intros Hk. rewrite slice_length_topK by assumption.
        unfold len. now rewrite sort_length.
Qed.

Lemma findRelevantChunks_sorted_stable_witness :
  exists cands,
    candidates asciiToLowerCase (RegExp.matchCount asciiCanonicalize)
      cityChunks (lit "What is paris Berlin"%string) = Returns cands
    /\ (exists decorated keep,
          map base decorated = cityChunks /\ cands = filter keep decorated)
    /\ StronglySorted scoreGe cityRanking
    /\ (forall v, exists rest,
          filter (hasScore v) cands = filter (hasScore v) cityRanking ++ rest)
    /\ (0 <= 2 -> len cityRanking = Z.min 2 (len cands)).
Proof.
  apply (@findRelevantChunks_sorted_stable asciiToLowerCase
           (RegExp.matchCount asciiCanonicalize)
           cityChunks (lit "What is paris Berlin"%string) 2 cityRanking).
  vm_compute. reflexivity.
Defined.

(** C3. A query word is compiled as a regular expression, not matched as
    a literal string.  The query [What is C++] makes the RegExp
    constructor throw a SyntaxError out of [findRelevantChunks]; the query
    [v1.0] gives the chunk [The v100 GPU] the score 1 although [v1.0] does
    not occur in it. *)
Theorem findRelevantChunks_query_word_is_pattern :
  findRelevantChunksWith asciiToLowerCase asciiCanonicalize
    [mkChunk (lit "Learn C++ today"%string) 0 0]
    (lit "What is C++"%string) 5
  = ThrowsSyntaxError
  /\ queryWords asciiToLowerCase (lit "What is C++"%string)
     = [lit "c++"%string]
  /\ findRelevantChunksWith asciiToLowerCase asciiCanonicalize
       [mkChunk (lit "The v100 GPU"%string) 0 0] (lit "v1.0"%string) 5
     = Returns [mkRanked (mkChunk (lit "The v100 GPU"%string) 0 0) (Some 1)]
  /\ literalOccurrences asciiCanonicalize (lit "v1.0"%string)
       (asciiToLowerCase (lit "The v100 GPU"%string)) = 0.
Proof.
  repeat split; vm_compute; reflexivity.
Qed.

(** * Further properties *)

(** ** The normalization keeps every other character *)

Lemma stripWhiteSpace_app (s t : jsstring) :
  stripWhiteSpace (s ++ t) = stripWhiteSpace s ++ stripWhiteSpace t.
Proof. apply filter_app. Qed.

Lemma stripWhiteSpace_whiteSpaceOnly (s : jsstring) :
  whiteSpaceOnly s -> stripWhiteSpace s = [].
Proof.
  intros H. induction H as [|c t Hc Ht IH]; [reflexivity|].
  unfold stripWhiteSpace in *. simpl. now rewrite Hc.
Qed.

Lemma stripWhiteSpace_replaceAll_from (pat rep s : jsstring) (skip : nat) :
  pat <> [] -> whiteSpaceOnly pat -> whiteSpaceOnly rep ->
  whiteSpaceOnly (firstn skip s) ->
  stripWhiteSpace (replaceAll_from pat rep s skip) = stripWhiteSpace s.
Proof.
  intros Hne Hpat Hrep. revert skip.
  induction s as [|c t IH]; intros skip Hskip; [reflexivity|].
  cbn [replaceAll_from]. destruct skip as [|k].
  - destruct (startsWith pat (c :: t)) eqn:E.
    + pose proof (startsWith_firstn _ _ E) as Hf.
      destruct pat as [|p pat']; [congruence|].
      simpl in Hf. injection Hf as Hp Hf. subst p.
      inversion Hpat as [|? ? Hc Hpat']; subst.
      rewrite stripWhiteSpace_app, (stripWhiteSpace_whiteSpaceOnly Hrep).
      rewrite IH by (simpl; rewrite Hf; exact Hpat').
      unfold stripWhiteSpace. simpl. now rewrite Hc.
    + unfold stripWhiteSpace in *. simpl.
      rewrite IH by constructor. reflexivity.
  - simpl in Hskip. inversion Hskip as [|? ? Hc Hk]; subst.
    rewrite IH by assumption.
    unfold stripWhiteSpace. simpl. now rewrite Hc.
Qed.

Lemma stripWhiteSpace_collapse_from (s : jsstring) (b : bool) :
  stripWhiteSpace (collapse_from s b) = stripWhiteSpace s.
Proof.
  revert b. induction s as [|c t IH]; intros b; [reflexivity|].
  unfold stripWhiteSpace in *. simpl.
  destruct (isWhiteSpace c) eqn:Hc; simpl.
  - destruct b; [apply IH|]. simpl. change (isWhiteSpace SP) with true.
    simpl. apply IH.
  - rewrite Hc. simpl. f_equal. apply IH.
Qed.

Lemma stripWhiteSpace_trimStart (s : jsstring) :
  stripWhiteSpace (trimStart s) = stripWhiteSpace s.
Proof.
  destruct (trimStart_suffix s) as [p [Hp Hws]].
  rewrite Hp at 2.
  now rewrite stripWhiteSpace_app, (stripWhiteSpace_whiteSpaceOnly Hws).
Qed.

Lemma stripWhiteSpace_rev (s : jsstring) :
  stripWhiteSpace (rev s) = rev (stripWhiteSpace s).
Proof. apply filter_rev. Qed.

Lemma stripWhiteSpace_trim (s : jsstring) :
  stripWhiteSpace (trim s) = stripWhiteSpace s.
Proof.
  unfold trim, trimEnd.
  rewrite stripWhiteSpace_rev, stripWhiteSpace_trimStart,
    stripWhiteSpace_rev, rev_involutive.
  apply stripWhiteSpace_trimStart.
Qed.

Lemma concat_split_from (s : jsstring) (b : bool) :
  concat (split_from isWhiteSpace s b) = stripWhiteSpace s.
Proof.
  revert b. induction s as [|c t IH]; intros b; [reflexivity|].
  unfold stripWhiteSpace in *. simpl.
  destruct (isWhiteSpace c) eqn:Hc; simpl.
  - destruct b; simpl; apply IH.
  - specialize (IH false).
    destruct (split_from isWhiteSpace t false) as [|w ws]; simpl in *;
      now rewrite <- IH.
Qed.

Lemma stripWhiteSpace_cleanText (text : jsstring) :
  stripWhiteSpace (cleanText text) = stripWhiteSpace text.
Proof.
  rewrite cleanText_eq, stripWhiteSpace_trim.
  unfold collapseWhiteSpace. rewrite stripWhiteSpace_collapse_from.
  apply stripWhiteSpace_replaceAll_from;
    [discriminate|repeat constructor|repeat constructor|constructor].
Qed.

(** X1. The normalization of lines 6-11 changes white space only: the
    cleaned text without its white space is the text without its white
    space, and so is the concatenation of the words that the chunker cuts
    the text into. *)
Theorem cleanText_keeps_characters (text : jsstring) :
  stripWhiteSpace (cleanText text) = stripWhiteSpace text
  /\ concat (wordsOf text) = stripWhiteSpace text.
Proof.
  split; [apply stripWhiteSpace_cleanText|].
  unfold wordsOf, split.
  now rewrite concat_split_from, stripWhiteSpace_trim,
    stripWhiteSpace_cleanText.
Qed.

(** ** The cleaned text is in normal form *)

Lemma singleSpaced_tail (c : N) (t : jsstring) :
  singleSpaced (c :: t) -> singleSpaced t.
Proof.
  intros H l1 x y l2 E. apply (H (c :: l1) x y l2). now rewrite E.
Qed.

Lemma singleSpaced_cons (c : N) (t : jsstring) :
  (isWhiteSpace c = true -> startsWord t = true \/ t = []) ->
  singleSpaced t -> singleSpaced (c :: t).
Proof.
  intros Hhd Ht l1 x y l2 E Hx Hy.
  destruct l1 as [|z l1]; simpl in E; injection E as -> E.
  - subst t. destruct (Hhd Hx) as [Hs|Hs]; [|discriminate].
    simpl in Hs. rewrite Hy in Hs. discriminate.
  - now apply (Ht l1 x y l2).
Qed.

Lemma singleSpaced_head (c : N) (t : jsstring) :
  singleSpaced (c :: t) -> isWhiteSpace c = true ->
  startsWord t = true \/ t = [].
Proof.
  intros H Hc. destruct t as [|d t']; [now right|left].
  simpl. destruct (isWhiteSpace d) eqn:Hd; [|reflexivity].
  exfalso. now apply (H [] c d t').
Qed.

Lemma singleSpaced_infix (p s q : jsstring) :
  singleSpaced (p ++ s ++ q) -> singleSpaced s.
Proof.
  intros H l1 x y l2 E. apply (H (p ++ l1) x y (l2 ++ q)).
  rewrite E. rewrite <- !app_assoc. reflexivity.
Qed.

Lemma collapse_from_singleSpaced (s : jsstring) :
  forall b,
    singleSpaced (collapse_from s b)
    /\ (b = true ->
        startsWord (collapse_from s b) = true \/ collapse_from s b = []).
Proof.
  induction s as [|c t IH]; intros b.
  - split; [|now right]. intros [|? ?] ? ? ? E; discriminate.
  - simpl. destruct (isWhiteSpace c) eqn:Hc.
    + destruct (IH true) as [Hs Hh]. destruct b.
      * split; [exact Hs|intros _; now apply Hh].
      * split; [|discriminate].
        apply singleSpaced_cons; [intros _; now apply Hh|exact Hs].
    + destruct (IH false) as [Hs _]. split.
      * apply singleSpaced_cons; [congruence|exact Hs].
      * intros _. left. simpl. now rewrite Hc.
Qed.

Lemma trimEnd_prefix (s : jsstring) :
  exists q, s = trimEnd s ++ q.
Proof.
  unfold trimEnd. destruct (trimStart_suffix (rev s)) as [p [Hp _]].
  exists (rev p). apply (f_equal (@rev N)) in Hp.
  rewrite rev_involutive, rev_app_distr in Hp. exact Hp.
Qed.

Lemma trim_infix (s : jsstring) :
  exists p q, s = p ++ trim s ++ q.
Proof.
  unfold trim. destruct (trimStart_suffix s) as [p [Hp _]].
  destruct (trimEnd_prefix (trimStart s)) as [q Hq].
  exists p, q. now rewrite <- Hq.
Qed.

Lemma join_cons_char (sepr : jsstring) (c : N) (w : jsstring)
    (ws : list jsstring) :
  join sepr ((c :: w) :: ws) = c :: join sepr (w :: ws).
Proof. destruct ws; reflexivity. Qed.

(** Joining the pieces of a single-spaced string by spaces gives the
    string back. *)
Lemma join_split_singleSpaced (s : jsstring) :
  spacesOnly s -> singleSpaced s ->
  join [SP] (split_from isWhiteSpace s false) = s.
Proof.
  induction s as [|c t IH]; intros Hsp Hss; [reflexivity|].
  inversion Hsp as [|? ? Hc Ht]; subst.
  pose proof (singleSpaced_tail Hss) as Hss'.
  cbn [split_from]. destruct (isWhiteSpace c) eqn:Hw.
  - rewrite (Hc eq_refl) in *.
    destruct (singleSpaced_head Hss Hw) as [Hs| ->]; [|reflexivity].
    destruct t as [|d t']; [discriminate|].
    simpl in Hs. apply negb_true_iff in Hs.
    rewrite split_from_word_start by exact Hs.
    destruct (split_from_cons isWhiteSpace (d :: t') false) as (w & ws & E).
    specialize (IH Ht Hss'). rewrite E in *.
    rewrite join_cons2. cbn [app]. now rewrite IH.
  - specialize (IH Ht Hss').
    destruct (split_from_cons isWhiteSpace t false) as (w & ws & E).
    rewrite E in *. rewrite join_cons_char. now rewrite IH.
Qed.

Lemma cleanText_singleSpaced (text : jsstring) :
  singleSpaced (cleanText text).
Proof.
  rewrite cleanText_eq.
  set (y := collapseWhiteSpace (replaceAll [CR; LF] [LF] text)).
  destruct (trim_infix y) as (p & q & E).
  apply (@singleSpaced_infix p (trim y) q). rewrite <- E.
  apply collapse_from_singleSpaced.
Qed.

(** X2. The cleaned text of a text that is not blank is its words joined
    by single spaces: it has no leading or trailing white space, no two
    spaces in a row, and no white space other than the plain space. *)
Theorem cleanText_normal_form (text : jsstring) :
  ~ whiteSpaceOnly text ->
  cleanText text = join [SP] (wordsOf text)
  /\ Forall isWord (wordsOf text)
  /\ Trimmed (cleanText text)
  /\ singleSpaced (cleanText text)
  /\ spacesOnly (cleanText text).
Proof.
  intros H. repeat split.
  - rewrite (wordsOf_eq H). symmetry. apply join_split_singleSpaced.
    + apply cleanText_spacesOnly.
    + apply cleanText_singleSpaced.
  - now apply wordsOf_words.
  - now apply cleanText_Trimmed.
  - now apply cleanText_Trimmed.
  - apply cleanText_singleSpaced.
  - apply cleanText_spacesOnly.
Qed.

Lemma cleanText_normal_form_witness :
  let text := [SP; 9%N] ++ lit "one"%string ++ [CR; LF; LF]
              ++ lit "two"%string ++ [160%N; SP] in
  cleanText text = join [SP] (wordsOf text)
  /\ Forall isWord (wordsOf text)
  /\ Trimmed (cleanText text)
  /\ singleSpaced (cleanText text)
  /\ spacesOnly (cleanText text).
Proof.
  apply cleanText_normal_form.
  intros H. apply isBlank_true_iff in H. vm_compute in H. discriminate.
Defined.

(** X3. A text that is not blank and has at most [chunkSize] words gives
    exactly one chunk, with index 0 and page number 0, whose content is
    the words of the text joined by single spaces; this holds for every
    overlap, since no sliding-window loop is entered. *)
Theorem chunkText_short_text (text : jsstring) (chunkSize : Z) :
  ~ whiteSpaceOnly text ->
  len (wordsOf text) <= chunkSize ->
  forall fuel overlap,
    chunkText fuel text chunkSize overlap
    = Some [mkChunk (join [SP] (wordsOf text)) 0 0].
Proof.
  intros Hnb Hle fuel overlap.
  rewrite chunkText_nonblank by assumption.
  destruct (Z.gtb_spec (len (wordsOf text)) chunkSize); [lia|].
  rewrite (wordsOf_eq Hnb). unfold split.
  rewrite join_split_singleSpaced; [reflexivity| |].
  - apply cleanText_spacesOnly.
  - apply cleanText_singleSpaced.
Qed.

Lemma chunkText_short_text_witness :
  chunkText 0 ([SP; LF] ++ lit "Paris is  big."%string ++ [LF; LF]
               ++ lit "Berlin"%string) 4 9
  = Some [mkChunk (join [SP] (wordsOf ([SP; LF]
                     ++ lit "Paris is  big."%string ++ [LF; LF]
                     ++ lit "Berlin"%string))) 0 0].
Proof.
  apply (@chunkText_short_text
           ([SP; LF] ++ lit "Paris is  big."%string ++ [LF; LF]
            ++ lit "Berlin"%string) 4).
  - intros H. apply isBlank_true_iff in H. vm_compute in H. discriminate.
  - vm_compute. discriminate.
Defined.

(** ** Normalizing twice *)

Lemma cleanText_blank (text : jsstring) :
  whiteSpaceOnly text -> cleanText text = [].
Proof.
  intros H. rewrite cleanText_eq. apply trim_nil_iff.
  apply collapse_from_whiteSpaceOnly, replaceAll_from_whiteSpaceOnly;
    [repeat constructor|exact H].
Qed.

Lemma collapse_from_normal (s : jsstring) :
  spacesOnly s -> singleSpaced s ->
  forall b, (b = true -> startsWord s = true \/ s = []) ->
    collapse_from s b = s.
Proof.
  induction s as [|c t IH]; intros Hsp Hss b Hb; [reflexivity|].
  inversion Hsp as [|? ? Hc Ht]; subst.
  pose proof (singleSpaced_tail Hss) as Hss'.
  simpl. destruct (isWhiteSpace c) eqn:Hw.
  - destruct b.
    + destruct (Hb eq_refl) as [Hs|Hs]; [|discriminate].
      simpl in Hs. rewrite Hw in Hs. discriminate.
    + rewrite (Hc eq_refl). f_equal. apply IH; auto.
      intros _. now apply (singleSpaced_head Hss).
  - f_equal. apply IH; auto. discriminate.
Qed.

Lemma spacesOnly_no_CR (s : jsstring) : spacesOnly s -> ~ In CR s.
Proof.
  intros H Hin. unfold spacesOnly in H. rewrite Forall_forall in H.
  specialize (H CR Hin eq_refl). discriminate.
Qed.

Lemma Trimmed_not_blank (s : jsstring) : Trimmed s -> ~ whiteSpaceOnly s.
Proof.
  intros [Hs _] Hb. destruct s as [|c t]; [discriminate|].
  inversion Hb as [|? ? Hc _]; subst. simpl in Hs.
  rewrite Hc in Hs. discriminate.
Qed.

Lemma cleanText_idempotent (text : jsstring) :
  cleanText (cleanText text) = cleanText text.
Proof.
  destruct (whiteSpaceOnly_dec text) as [Hb|Hnb].
  - rewrite (cleanText_blank Hb). reflexivity.
  - set (y := cleanText text).
    rewrite cleanText_eq.
    rewrite (@replaceAll_absent [CR; LF] [LF] y CR);
      [|now left|apply spacesOnly_no_CR, cleanText_spacesOnly].
    unfold collapseWhiteSpace. rewrite collapse_from_normal.
    + apply Trimmed_trim. now apply cleanText_Trimmed.
    + apply cleanText_spacesOnly.
    + apply cleanText_singleSpaced.
    + discriminate.
Qed.

(** X4. Normalizing is idempotent, and the chunks of a text are the
    chunks of its cleaned text: [chunkText] of a text that was already
    cleaned gives the same result, for every chunk size and overlap. *)
Theorem chunkText_of_cleanText (text : jsstring) :
  cleanText (cleanText text) = cleanText text
  /\ forall fuel chunkSize overlap,
       chunkText fuel (cleanText text) chunkSize overlap
       = chunkText fuel text chunkSize overlap.
Proof.
  split; [apply cleanText_idempotent|]. intros fuel chunkSize overlap.
  destruct (whiteSpaceOnly_dec text) as [Hb|Hnb].
  - rewrite (cleanText_blank Hb). now rewrite (chunkText_blank _ _ _ Hb).
  - pose proof (Trimmed_not_blank (cleanText_Trimmed Hnb)) as Hnb'.
    rewrite !chunkText_nonblank by assumption.
    unfold wordsOf. now rewrite cleanText_idempotent.
Qed.

(** ** The numbering of the chunks *)

Lemma indexed_snoc (l : list Chunk) (c : jsstring) :
  map chunkIndex l = map Z.of_nat (seq 0 (length l)) ->
  Forall (fun c => pageNumber c = 0) l ->
  map chunkIndex (l ++ [mkChunk c (len l) 0])
  = map Z.of_nat (seq 0 (length (l ++ [mkChunk c (len l) 0])))
  /\ Forall (fun c => pageNumber c = 0) (l ++ [mkChunk c (len l) 0]).
Proof.
  intros Hi Hp. split.
  - rewrite length_app, Nat.add_comm. cbn [length Nat.add].
    rewrite seq_S, !map_app, Hi. reflexivity.
  - apply Forall_app. split; [exact Hp|]. repeat constructor.
Qed.

Lemma wellIndexed_same (st st' : ChunkerState) :
  chunks st' = chunks st -> nextIndex st' = nextIndex st ->
  wellIndexed st -> wellIndexed st'.
Proof. unfold wellIndexed. intros -> ->. auto. Qed.

Lemma pushChunk_wellIndexed (st : ChunkerState) (c : jsstring) :
  wellIndexed st -> wellIndexed (pushChunk st c).
Proof.
  intros (Hn & Hi & Hp). unfold wellIndexed, pushChunk.
  cbn [chunks nextIndex]. rewrite Hn.
  destruct (indexed_snoc c Hi Hp) as [Hi' Hp'].
  repeat split; [|exact Hi'|exact Hp'].
  unfold len. rewrite length_app. simpl. lia.
Qed.

Lemma windowLoop_wellIndexed (fuel : nat) (words : list jsstring)
    (chunkSize overlap i : Z) (st st' : ChunkerState) :
  wellIndexed st ->
  windowLoop fuel words chunkSize overlap i st = Some st' ->
  wellIndexed st'.
Proof.
  revert i st. induction fuel as [|fuel IH]; intros i st Hw H;
    [discriminate|].
  cbn [windowLoop] in H.
  destruct (i <? len words); [|now injection H as <-].
  destruct (i + chunkSize >=? len words).
  - injection H as <-. now apply pushChunk_wellIndexed.
  - eapply IH; [|exact H]. now apply pushChunk_wellIndexed.
Qed.

Lemma flushPending_wellIndexed (st : ChunkerState) :
  wellIndexed st -> wellIndexed (flushPending st).
Proof.
  intros Hw. unfold flushPending.
  destruct (0 <? len (currentChunk st)); [|exact Hw].
  eapply wellIndexed_same;
    [| |apply (pushChunk_wellIndexed (join [LF; LF] (currentChunk st)) Hw)];
    reflexivity.
Qed.

Lemma paragraphStep_wellIndexed (fuel : nat) (chunkSize overlap : Z)
    (st st' : ChunkerState) (p : jsstring) :
  wellIndexed st ->
  paragraphStep fuel chunkSize overlap st p = Some st' ->
  wellIndexed st'.
Proof.
  intros Hw H. unfold paragraphStep in H.
  destruct (_ >? chunkSize).
  - eapply windowLoop_wellIndexed; [|exact H].
    now apply flushPending_wellIndexed.
  - destruct (_ && _); injection H as <-.
    + eapply wellIndexed_same;
        [| |apply (pushChunk_wellIndexed
                     (join [LF; LF] (currentChunk st)) Hw)];
        reflexivity.
    + eapply wellIndexed_same; [| |exact Hw]; reflexivity.
Qed.

Lemma paragraphLoop_wellIndexed (fuel : nat) (chunkSize overlap : Z)
    (paragraphs : list jsstring) :
  forall st st',
    wellIndexed st ->
    paragraphLoop fuel chunkSize overlap paragraphs st = Some st' ->
    wellIndexed st'.
Proof.
  induction paragraphs as [|p ps IH]; intros st st' Hw H; simpl in H.
  - now injection H as <-.
  - destruct (paragraphStep fuel chunkSize overlap st p) as [st1|] eqn:E;
      [|discriminate].
    eapply IH; [|exact H]. eapply paragraphStep_wellIndexed; eauto.
Qed.

Lemma wellIndexed_initialState : wellIndexed initialState.
Proof. repeat split. constructor. Qed.

(** The result of [chunkText] is the chunks of a numbered state, with at
    most the chunk of the last flush after them. *)
Lemma chunkText_final_state (fuel : nat) (text : jsstring)
    (chunkSize overlap : Z) (result : list Chunk) :
  chunkText fuel text chunkSize overlap = Some result ->
  exists st,
    wellIndexed st
    /\ (result = chunks st
        \/ exists c, result = chunks st ++ [mkChunk c (len (chunks st)) 0]).
Proof.
  unfold chunkText. intros H.
  destruct (isBlank text).
  { injection H as <-. exists initialState.
    split; [apply wellIndexed_initialState|now left]. }
  destruct (paragraphLoop fuel chunkSize overlap
              (splitParagraphs (cleanText text)) initialState)
    as [st|] eqn:Hloop; [|discriminate].
  pose proof (@paragraphLoop_wellIndexed _ _ _ _ _ _
                wellIndexed_initialState Hloop) as Hw.
  unfold finalFlush in H.
  destruct (0 <? len (currentChunk st)).
  - cbn [chunks] in H. exists st. split; [exact Hw|right].
    destruct Hw as (Hn & _ & _). rewrite Hn in H.
    replace (len (chunks st ++ _) =? 0) with false in H.
    + cbn [andb] in H. injection H as <-. eauto.
    + symmetry. apply Z.eqb_neq. unfold len. rewrite length_app.
      simpl. lia.
  - destruct ((len (chunks st) =? 0) && (0 <? len (cleanText text))).
    + destruct (windowLoop fuel _ chunkSize overlap 0 st) as [st'|] eqn:E;
        [|discriminate].
      injection H as <-. exists st'. split; [|now left].
      exact (@windowLoop_wellIndexed _ _ _ _ _ _ _ Hw E).
    + injection H as <-. exists st. split; [exact Hw|now left].
Qed.

Lemma indexed_bound (l : list Chunk) (c : Chunk) :
  map chunkIndex l = map Z.of_nat (seq 0 (length l)) ->
  In c l -> 0 <= chunkIndex c < len l.
Proof.
  intros Hi Hc.
  assert (Hin : In (chunkIndex c) (map chunkIndex l)) by now apply in_map.
  rewrite Hi in Hin. apply in_map_iff in Hin as (j & <- & Hj).
  apply in_seq in Hj. unfold len. lia.
Qed.



(** ** An overlap that is not below the chunk size *)

Lemma windowLoop_diverges (words : list jsstring) (chunkSize overlap : Z) :
  chunkSize <= overlap -> 0 < len words ->
  forall fuel i st,
    i <= 0 -> i + chunkSize < len words ->
    windowLoop fuel words chunkSize overlap i st = None.
Proof.
  intros Hov Hlen. induction fuel as [|fuel IH]; intros i st Hi Hlt;
    [reflexivity|].
  cbn [windowLoop].
  destruct (Z.ltb_spec i (len words)); [|lia].
  destruct (Z.geb_spec (i + chunkSize) (len words)); [lia|].
  apply IH; lia.
Qed.

(** X6. With an overlap that is not below the chunk size, [chunkText] does
    not return on a text of more than [chunkSize] words: the window index
    never advances, and the loop goes on for as long as it is run. *)
Theorem chunkText_diverges (text : jsstring) (chunkSize overlap : Z) :
  chunkSize <= overlap ->
  chunkSize < len (wordsOf text) ->
  ~ whiteSpaceOnly text ->
  forall fuel, chunkText fuel text chunkSize overlap = None.
Proof.
  intros Hov Hlt Hnb fuel. rewrite chunkText_nonblank by assumption.
  destruct (Z.gtb_spec (len (wordsOf text)) chunkSize); [|lia].
  rewrite windowLoop_diverges; [reflexivity|lia| |lia|lia].
  pose proof (wordsOf_length text). unfold len. lia.
Qed.

Lemma chunkText_diverges_witness :
  chunkText 1000 (lit "a b c"%string) 2 2 = None.
Proof.
  apply (@chunkText_diverges (lit "a b c"%string) 2 2).
  - lia.
  - vm_compute. reflexivity.
  - intros H. apply isBlank_true_iff in H. vm_compute in H. discriminate.
Defined.

(** ** The words of the sliding windows *)

Lemma slice_take_drop {A : Type} (l : list A) (a b : Z) :
  0 <= a -> a <= b ->
  slice l a b = firstn (Z.to_nat (b - a)) (skipn (Z.to_nat a) l).
Proof.
  intros Ha Hb. unfold slice, sliceIndex.
  destruct (Z.ltb_spec a 0); [lia|].
  destruct (Z.ltb_spec b 0); [lia|].
  destruct (Z.le_gt_cases a (Z.of_nat (length l))) as [Hal|Hal].
  - rewrite (Z.min_l a) by lia.
    destruct (Z.le_gt_cases b (Z.of_nat (length l))) as [Hbl|Hbl].
    + now rewrite (Z.min_l b) by lia.
    + rewrite (Z.min_r b) by lia.
      rewrite !firstn_all2; [reflexivity| |]; rewrite length_skipn; lia.
  - rewrite (Z.min_r a), (Z.min_r b) by lia.
    rewrite Nat2Z.id, skipn_all, (skipn_all2 l) by lia.
    now rewrite !firstn_nil.
Qed.

Lemma firstn_plus {A : Type} (a b : nat) (l : list A) :
  firstn (a + b) l = firstn a l ++ firstn b (skipn a l).
Proof.
  revert l. induction a as [|a IH]; intros l; [reflexivity|].
  destruct l as [|x l]; simpl.
  - now rewrite firstn_nil.
  - now rewrite IH.
Qed.

Lemma skipn_firstn_slice {A : Type} (m n : nat) (l : list A) :
  skipn m (firstn (m + n) l) = firstn n (skipn m l).
Proof.
  rewrite firstn_plus. rewrite skipn_app.
  rewrite length_firstn.
  destruct (Nat.le_gt_cases m (length l)) as [H|H].
  - rewrite Nat.min_l by lia. rewrite Nat.sub_diag.
    rewrite skipn_all2 by (rewrite length_firstn; lia). reflexivity.
  - rewrite (skipn_all2 l) by lia. rewrite firstn_nil.
    rewrite skipn_nil, app_nil_r.
    apply skipn_all2. rewrite length_firstn. lia.
Qed.

Section Windows.

Variable words : list jsstring.
Variables chunkSize overlap : Z.
Hypothesis Hparams : 0 <= overlap < chunkSize.

Let step : Z := chunkSize - overlap.
Let n : nat := windowCount (len words) chunkSize overlap.

Lemma window_take_drop (j : nat) :
  window words chunkSize overlap j
  = firstn (Z.to_nat chunkSize)
      (skipn (j * Z.to_nat (chunkSize - overlap)) words).
Proof.
  unfold window. rewrite slice_take_drop by nia.
  f_equal; [f_equal; lia|]. f_equal. nia.
Qed.

(** A window that is not the last one ends before the last word. *)
Lemma window_full (j : nat) :
  (S j < n)%nat ->
  Z.of_nat j * (chunkSize - overlap) + chunkSize < len words.
Proof.
  subst n. unfold windowCount. intros Hj.
  set (x := Z.max (len words - chunkSize) 0) in *.
  assert (Hk : 0 <= (x + (chunkSize - overlap - 1)) / (chunkSize - overlap))
    by (apply Z.div_pos; lia).
  assert (Hm : (chunkSize - overlap)
               * ((x + (chunkSize - overlap - 1)) / (chunkSize - overlap))
               <= x + (chunkSize - overlap - 1))
    by (apply Z.mul_div_le; lia).
  assert (Hj' : Z.of_nat j + 1
                <= (x + (chunkSize - overlap - 1)) / (chunkSize - overlap))
    by lia.
  assert (Hx : (Z.of_nat j + 1) * (chunkSize - overlap)
               <= x + (chunkSize - overlap - 1)) by nia.
  assert (0 < x) by nia.
  assert (x = len words - chunkSize) by (subst x; lia).
  lia.
Qed.

(** The last window reaches the last word. *)
Lemma window_last (j : nat) :
  n = S j ->
  len words <= Z.of_nat j * (chunkSize - overlap) + chunkSize.
Proof.
  subst n. unfold windowCount. intros Hj. injection Hj as Hj.
  set (x := Z.max (len words - chunkSize) 0) in *.
  pose proof (Z.div_mod (x + (chunkSize - overlap - 1))
                (chunkSize - overlap) ltac:(lia)) as Hd.
  pose proof (Z.mod_pos_bound (x + (chunkSize - overlap - 1))
                (chunkSize - overlap) ltac:(lia)) as Hb.
  assert (Hk : 0 <= (x + (chunkSize - overlap - 1)) / (chunkSize - overlap))
    by (apply Z.div_pos; lia).
  assert (Z.of_nat j
          = (x + (chunkSize - overlap - 1)) / (chunkSize - overlap)) by lia.
  assert (x <= Z.of_nat j * (chunkSize - overlap)) by nia.
  lia.
Qed.

Lemma window_length (j : nat) :
  (j < n)%nat -> 0 < len words ->
  len (window words chunkSize overlap j)
  = Z.min chunkSize (len words - Z.of_nat j * (chunkSize - overlap)).
Proof.
  intros Hj Hw. unfold window. apply slice_length_window; [|lia].
  apply (@window_nonempty (len words) chunkSize overlap j); auto. lia.
Qed.

(** The last [overlap] words of a window are the first [overlap] words of
    the next one. *)
Lemma window_overlap (j : nat) :
  skipn (Z.to_nat (chunkSize - overlap)) (window words chunkSize overlap j)
  = firstn (Z.to_nat overlap) (window words chunkSize overlap (S j)).
Proof.
  rewrite !window_take_drop.
  replace (Z.to_nat chunkSize)
    with (Z.to_nat (chunkSize - overlap) + Z.to_nat overlap)%nat by lia.
  rewrite skipn_firstn_slice, skipn_skipn.
  rewrite firstn_firstn.
  rewrite Nat.min_l by lia. reflexivity.
Qed.

(** The first window followed by what each later window adds to the one
    before it: the words up to the end of the last of these windows. *)
Lemma windows_concat (m : nat) :
  window words chunkSize overlap 0
  ++ concat (map (fun j => skipn (Z.to_nat overlap)
                             (window words chunkSize overlap j))
               (seq 1 m))
  = firstn (m * Z.to_nat (chunkSize - overlap) + Z.to_nat chunkSize) words.
Proof.
  induction m as [|m IH].
  - simpl. rewrite app_nil_r, window_take_drop. reflexivity.
  - rewrite seq_S, map_app, concat_app, app_assoc, IH.
    cbn [map concat]. rewrite app_nil_r.
    rewrite window_take_drop.
    replace (Z.to_nat chunkSize)
      with (Z.to_nat overlap + Z.to_nat (chunkSize - overlap))%nat at 2
      by lia.
    rewrite skipn_firstn_slice, skipn_skipn.
    replace (Z.to_nat overlap + (1 + m) * Z.to_nat (chunkSize - overlap))%nat
      with (m * Z.to_nat (chunkSize - overlap) + Z.to_nat chunkSize)%nat
      by lia.
    rewrite <- firstn_plus. f_equal. lia.
Qed.

End Windows.

Lemma nth_error_map_seq {A : Type} (f : nat -> A) (n j : nat) (c : A) :
  nth_error (map f (seq 0 n)) j = Some c -> (j < n)%nat /\ c = f j.
Proof.
  rewrite nth_error_map, nth_error_seq.
  destruct (Nat.ltb_spec j n) as [Hlt|Hge]; [|discriminate].
  simpl. intros E. injection E as <-. now split.
Qed.

Lemma chunkWords_windowChunk (words : list jsstring) (chunkSize overlap : Z)
    (j : nat) :
  0 <= overlap < chunkSize ->
  Forall isWord words -> 0 < len words ->
  (j < windowCount (len words) chunkSize overlap)%nat ->
  chunkWords (windowChunk words chunkSize overlap j)
  = window words chunkSize overlap j.
Proof.
  intros Hp Hw Hlen Hj. unfold chunkWords, windowChunk. cbn [content].
  unfold split. apply split_join_words.
  - intros E. pose proof (window_length words Hp Hj Hlen) as Hl.
    rewrite E in Hl. unfold len in Hl at 1. cbn [length] in Hl.
    pose proof (@window_nonempty (len words) chunkSize overlap j Hp
                  ltac:(lia) Hj).
    lia.
  - unfold window. now apply slice_Forall.
Qed.

(** The three results of [chunkText] for a positive window step. *)
Lemma chunkText_cases (fuel : nat) (text : jsstring) (chunkSize overlap : Z)
    (result : list Chunk) :
  0 <= overlap < chunkSize ->
  chunkText fuel text chunkSize overlap = Some result ->
  (whiteSpaceOnly text /\ result = [])
  \/ (~ whiteSpaceOnly text /\ len (wordsOf text) <= chunkSize
      /\ result = [mkChunk (cleanText text) 0 0])
  \/ (~ whiteSpaceOnly text /\ chunkSize < len (wordsOf text)
      /\ result = map (windowChunk (wordsOf text) chunkSize overlap)
                    (seq 0 (windowCount (len (wordsOf text))
                              chunkSize overlap))).
Proof.
  intros Hp H. destruct (whiteSpaceOnly_dec text) as [Hb|Hnb].
  - left. rewrite chunkText_blank in H by assumption.
    injection H as <-. now split.
  - right.
    assert (H' := @chunkText_fuel_irrelevant _ _ _ _ _ H
                    (Nat.max fuel (S (length text))) ltac:(lia)).
    rewrite chunkText_result in H'; [|assumption|assumption|lia].
    injection H' as <-.
    destruct (Z.gtb_spec (len (wordsOf text)) chunkSize).
    + right. repeat split; auto.
    + left. repeat split; auto.
Qed.

(** X7. For [chunkSize > overlap >= 0], of two chunks that follow each
    other in the result the first has exactly [chunkSize] words, the
    second starts with the last [overlap] words of the first, and the
    second has more than [overlap] words: every chunk after the first
    repeats [overlap] words and then brings at least one new word. *)
Theorem chunkText_overlap (fuel : nat) (text : jsstring)
    (chunkSize overlap : Z) (result : list Chunk) :
  0 <= overlap < chunkSize ->
  chunkText fuel text chunkSize overlap = Some result ->
  forall j c1 c2,
    nth_error result j = Some c1 ->
    nth_error result (S j) = Some c2 ->
    len (chunkWords c1) = chunkSize
    /\ overlap < len (chunkWords c2) <= chunkSize
    /\ skipn (Z.to_nat (chunkSize - overlap)) (chunkWords c1)
       = firstn (Z.to_nat overlap) (chunkWords c2).
Proof.
  intros Hp H j c1 c2 H1 H2.
  destruct (@chunkText_cases _ _ _ _ _ Hp H)
    as [[_ ->]|[(_ & _ & ->)|(Hnb & Hgt & ->)]].
  - destruct j; discriminate.
  - destruct j; discriminate.
  - apply nth_error_map_seq in H1 as [Hj1 ->].
    apply nth_error_map_seq in H2 as [Hj2 ->].
    pose proof (wordsOf_words Hnb) as Hw.
    assert (Hlen : 0 < len (wordsOf text)) by lia.
    rewrite !chunkWords_windowChunk by (auto; lia).
    pose proof (window_full (wordsOf text) Hp Hj2) as Hfull.
    rewrite !window_length by (auto; lia).
    repeat split; [lia|lia|lia|].
    now apply window_overlap.
Qed.

Lemma chunkText_overlap_witness :
  len (chunkWords (mkChunk (lit "a b c"%string) 0 0)) = 3
  /\ 1 < len (chunkWords (mkChunk (lit "c d e"%string) 1 0)) <= 3
  /\ skipn (Z.to_nat (3 - 1)) (chunkWords (mkChunk (lit "a b c"%string) 0 0))
     = firstn (Z.to_nat 1) (chunkWords (mkChunk (lit "c d e"%string) 1 0)).
Proof.
  apply (@chunkText_overlap 10 (lit "a b c d e f g"%string) 3 1
           [mkChunk (lit "a b c"%string) 0 0; mkChunk (lit "c d e"%string) 1 0;
            mkChunk (lit "e f g"%string) 2 0]
           ltac:(lia) ltac:(vm_compute; reflexivity) 0%nat).
  - reflexivity.
  - reflexivity.
Defined.

(** X8. For [chunkSize > overlap >= 0], the words of the text are the
    words of the first chunk followed by the words of every later chunk
    without its first [overlap] words: no word is lost or repeated beyond
    the overlap, and the order is kept. *)
Theorem chunkText_words_recovered (fuel : nat) (text : jsstring)
    (chunkSize overlap : Z) (first : Chunk) (rest : list Chunk) :
  0 <= overlap < chunkSize ->
  chunkText fuel text chunkSize overlap = Some (first :: rest) ->
  wordsOf text
  = chunkWords first
    ++ concat (map (fun c => skipn (Z.to_nat overlap) (chunkWords c)) rest).
Proof.
  intros Hp H.
  destruct (@chunkText_cases _ _ _ _ _ Hp H)
    as [[_ E]|[(Hnb & _ & E)|(Hnb & Hgt & E)]].
  - discriminate.
  - injection E as -> ->. cbn [map concat]. rewrite app_nil_r.
    unfold chunkWords. cbn [content]. now apply wordsOf_eq.
  - pose proof (wordsOf_words Hnb) as Hw.
    assert (Hlen : 0 < len (wordsOf text)) by lia.
    set (words := wordsOf text) in *.
    destruct (windowCount (len words) chunkSize overlap) as [|m] eqn:En;
      [discriminate|].
    cbn [seq map] in E. injection E as -> ->.
    rewrite chunkWords_windowChunk by (auto; lia).
    rewrite <- seq_shift, !map_map.
    rewrite (map_ext_in _
               (fun j => skipn (Z.to_nat overlap)
                           (window words chunkSize overlap (S j)))).
    + rewrite <- (map_map S (fun j => skipn (Z.to_nat overlap)
                              (window words chunkSize overlap j))).
      rewrite seq_shift, windows_concat by assumption.
      symmetry. apply firstn_all2.
      pose proof (window_last words Hp En) as Hl. unfold len in Hl. nia.
    + intros j Hj. apply in_seq in Hj.
      rewrite chunkWords_windowChunk by (auto; lia). reflexivity.
Qed.

Lemma chunkText_words_recovered_witness :
  wordsOf (lit "a b c d e f g"%string)
  = chunkWords (mkChunk (lit "a b c"%string) 0 0)
    ++ concat (map (fun c => skipn (Z.to_nat 1) (chunkWords c))
                 [mkChunk (lit "c d e"%string) 1 0;
                  mkChunk (lit "e f g"%string) 2 0]).
Proof.
  apply (@chunkText_words_recovered 10 (lit "a b c d e f g"%string) 3 1).
  - lia.
  - vm_compute. reflexivity.
Defined.

(** ** The ranker: what is returned *)

Lemma insertSorted_Permutation {A : Type} (cmp : A -> A -> option Z)
    (x : A) (l : list A) :
  Permutation (insertSorted cmp x l) (x :: l).
Proof.
  induction l as [|y t IH]; simpl; [reflexivity|].
  destruct (comesAfter cmp x y); [|reflexivity].
  rewrite IH. apply perm_swap.
Qed.

Lemma sort_Permutation {A : Type} (cmp : A -> A -> option Z) (l : list A) :
  Permutation (sort cmp l) l.
Proof.
  induction l as [|x t IH]; simpl; [reflexivity|].
  rewrite insertSorted_Permutation. now constructor.
Qed.

Lemma StronglySorted_app_cross {A : Type} (R : A -> A -> Prop)
    (l1 l2 : list A) :
  StronglySorted R (l1 ++ l2) ->
  forall a b, In a l1 -> In b l2 -> R a b.
Proof.
  induction l1 as [|x t IH]; intros H a b Ha Hb; [destruct Ha|].
  simpl in H. apply StronglySorted_inv in H as [Ht Hx].
  destruct Ha as [<-|Ha].
  - rewrite Forall_forall in Hx. apply Hx, in_or_app. now right.
  - now apply IH.
Qed.

Lemma slice_nil {A : Type} (i j : Z) : slice (@nil A) i j = [].
Proof. unfold slice. now rewrite skipn_nil, firstn_nil. Qed.

Lemma sort_Forall {A : Type} (cmp : A -> A -> option Z) (P : A -> Prop)
    (l : list A) :
  Forall P l -> Forall P (sort cmp l).
Proof.
  rewrite !Forall_forall. intros H x Hx. apply H. now apply sort_In in Hx.
Qed.

Section RankedOutput.

Variable toLowerCase : jsstring -> jsstring.
Variable regExpMatchCount : jsstring -> jsstring -> Outcome Z.

(** The output is the sorted candidates cut to [topK]. *)
Lemma findRelevantChunks_candidates (chunks : list Chunk) (query : jsstring)
    (topK : Z) (out : list RankedChunk) :
  findRelevantChunks toLowerCase regExpMatchCount chunks query topK
  = Returns out ->
  exists cands,
    candidates toLowerCase regExpMatchCount chunks query = Returns cands
    /\ out = slice (sort compareScore cands) 0 topK.
Proof.
  unfold findRelevantChunks, candidates. intros H.
  destruct ((len chunks =? 0) || (len query =? 0)).
  - injection H as <-. exists []. split; [reflexivity|].
    simpl. now rewrite slice_nil.
  - destruct (len (queryWords toLowerCase query) =? 0).
    + injection H as <-. eexists. split; [reflexivity|].
      rewrite sort_unscored by apply map_unscored_None.
      now rewrite slice_map.
    + destruct (scoreChunks _ _ _ _) as [scored| |]; try discriminate.
      injection H as <-. eexists. split; reflexivity.
Qed.

Lemma candidates_facts (chunks : list Chunk) (query : jsstring)
    (cands : list RankedChunk) :
  candidates toLowerCase regExpMatchCount chunks query = Returns cands ->
  Forall (fun e => In (base e) chunks) cands
  /\ (Forall (fun e => score e = None) cands \/ Forall rankedEntry cands)
  /\ (chunks <> [] -> query <> [] -> cands <> []).
Proof.
  unfold candidates. intros H.
  assert (Hun : Forall (fun e => In (base e) chunks) (map unscored chunks)).
  { apply Forall_forall. intros e He.
    apply in_map_iff in He as (c & <- & Hc). exact Hc. }
  assert (Hne : chunks <> [] -> map unscored chunks <> []).
  { destruct chunks; [congruence|discriminate]. }
  destruct ((len chunks =? 0) || (len query =? 0)) eqn:Hg.
  - injection H as <-. repeat split; [constructor|left; constructor|].
    intros Hc Hq. apply orb_true_iff in Hg as [Hg|Hg];
      apply Z.eqb_eq in Hg; unfold len in Hg.
    + destruct chunks; [congruence|discriminate].
    + destruct query; [congruence|discriminate].
  - destruct (len (queryWords toLowerCase query) =? 0).
    + injection H as <-. repeat split; auto.
      left. apply map_unscored_None.
    + destruct (scoreChunks _ _ _ _) as [scored| |] eqn:Hs;
        try discriminate.
      injection H as <-.
      destruct (scoreChunks_shape _ _ _ _ Hs) as [Hbase Hsome].
      destruct (selectCandidates_cases scored chunks) as [[-> Hf]|[-> Hf]].
      * repeat split; auto.
        -- apply Forall_forall. intros e He.
           apply filter_In in He as [He _]. rewrite <- Hbase.
           now apply in_map.
        -- right. apply Forall_forall. intros e He.
           apply filter_In in He as [He Hp].
           unfold hasPositiveScore in Hp. unfold rankedEntry.
           destruct (score e) as [v|]; [|discriminate].
           exists v. split; [reflexivity|]. now apply Z.gtb_lt in Hp.
      * repeat split; auto. left. apply map_unscored_None.
Qed.

Lemma candidates_sorted (chunks : list Chunk) (query : jsstring)
    (cands : list RankedChunk) :
  candidates toLowerCase regExpMatchCount chunks query = Returns cands ->
  StronglySorted scoreGe (sort compareScore cands).
Proof.
  intros H. destruct (candidates_facts _ _ H) as (_ & [Hn|Hr] & _).
  - rewrite sort_unscored by assumption. now apply unscored_sorted.
  - apply sort_scored_sorted. revert Hr. apply Forall_impl.
    intros e (v & Hv & _). eauto.
Qed.

End RankedOutput.

Lemma sorted_slice_nonempty (cands : list RankedChunk) (topK : Z) :
  cands <> [] -> 1 <= topK ->
  slice (sort compareScore cands) 0 topK <> []
  /\ 1 <= len (slice (sort compareScore cands) 0 topK) <= topK.
Proof.
  intros Hne Hk.
  assert (Hlen : len (slice (sort compareScore cands) 0 topK)
                 = Z.min topK (len cands)).
  { rewrite slice_length_topK by lia. unfold len. now rewrite sort_length. }
  assert (1 <= len cands).
  { unfold len. destruct cands; [congruence|simpl; lia]. }
  split; [|lia].
  intros E. rewrite E in Hlen. unfold len in Hlen at 1. simpl in Hlen. lia.
Qed.

(** X9. For a chunk list and a query that are not empty and [topK >= 1],
    [findRelevantChunks] never returns an empty list: it returns between 1
    and [topK] entries, and every entry is one of the chunks passed in,
    with its content, index and page number unchanged. *)
Theorem findRelevantChunks_never_empty
    (toLowerCase : jsstring -> jsstring)
    (regExpMatchCount : jsstring -> jsstring -> Outcome Z)
    (chunks : list Chunk) (query : jsstring) (topK : Z)
    (out : list RankedChunk) :
  chunks <> [] -> query <> [] -> 1 <= topK ->
  findRelevantChunks toLowerCase regExpMatchCount chunks query topK
  = Returns out ->
  out <> []
  /\ 1 <= len out <= topK
  /\ Forall (fun e => In (base e) chunks) out.
Proof.
  intros Hc Hq Hk H.
  destruct (findRelevantChunks_candidates _ _ _ _ _ H) as (cands & Hcand & ->).
  destruct (candidates_facts _ _ _ _ Hcand) as (Hin & _ & Hne).
  destruct (sorted_slice_nonempty (Hne Hc Hq) Hk) as [Hout Hlen].
  repeat split; [exact Hout|lia|lia|].
  apply slice_Forall, sort_Forall, Hin.
Qed.

Lemma findRelevantChunks_never_empty_witness :
  cityRanking <> []
  /\ 1 <= len cityRanking <= 2
  /\ Forall (fun e => In (base e) cityChunks) cityRanking.
Proof.
  apply (@findRelevantChunks_never_empty asciiToLowerCase
           (RegExp.matchCount asciiCanonicalize)
           cityChunks (lit "What is paris Berlin"%string) 2 cityRanking).
  - discriminate.
  - discriminate.
  - lia.
  - vm_compute. reflexivity.
Defined.

(** X10. What [findRelevantChunks] returns and what it leaves out are
    together the candidates, and no candidate left out has a higher score
    than an entry returned.  The entries returned either all are chunks as
    given, without a score, or all have a positive score. *)
Theorem findRelevantChunks_top_candidates
    (toLowerCase : jsstring -> jsstring)
    (regExpMatchCount : jsstring -> jsstring -> Outcome Z)
    (chunks : list Chunk) (query : jsstring) (topK : Z)
    (out : list RankedChunk) :
  findRelevantChunks toLowerCase regExpMatchCount chunks query topK
  = Returns out ->
  exists cands dropped,
    candidates toLowerCase regExpMatchCount chunks query = Returns cands
    /\ Permutation (out ++ dropped) cands
    /\ (forall a b, In a out -> In b dropped -> scoreGe a b)
    /\ (Forall (fun e => score e = None) out \/ Forall rankedEntry out).
Proof.
  intros H.
  destruct (findRelevantChunks_candidates _ _ _ _ _ H) as (cands & Hcand & ->).
  destruct (candidates_facts _ _ _ _ Hcand) as (_ & Hkind & _).
  pose proof (candidates_sorted _ _ _ _ Hcand) as Hsorted.
  destruct (slice_prefix (sort compareScore cands) topK) as [n Hn].
  rewrite Hn in *.
  exists cands, (skipn n (sort compareScore cands)).
  split; [exact Hcand|]. split; [|split].
  - rewrite firstn_skipn. apply sort_Permutation.
  - apply StronglySorted_app_cross. now rewrite firstn_skipn.
  - destruct Hkind as [Hk|Hk]; [left|right];
      apply Forall_take, sort_Forall, Hk.
Qed.

Lemma findRelevantChunks_top_candidates_witness :
  exists cands dropped,
    candidates asciiToLowerCase (RegExp.matchCount asciiCanonicalize)
      cityChunks (lit "What is paris Berlin"%string) = Returns cands
    /\ Permutation (cityRanking ++ dropped) cands
    /\ (forall a b, In a cityRanking -> In b dropped -> scoreGe a b)
    /\ (Forall (fun e => score e = None) cityRanking
        \/ Forall rankedEntry cityRanking).
Proof.
  apply (@findRelevantChunks_top_candidates asciiToLowerCase
           (RegExp.matchCount asciiCanonicalize)
           cityChunks (lit "What is paris Berlin"%string) 2 cityRanking).
  vm_compute. reflexivity.
Defined.

(** X11. When the first entry returned has a score, every chunk was
    scored and none has a higher score: the first entry is a chunk of the
    highest score among all the chunks passed in. *)
Theorem findRelevantChunks_best_first
    (toLowerCase : jsstring -> jsstring)
    (regExpMatchCount : jsstring -> jsstring -> Outcome Z)
    (chunks : list Chunk) (query : jsstring) (topK : Z)
    (best : RankedChunk) (rest : list RankedChunk) (v : Z) :
  findRelevantChunks toLowerCase regExpMatchCount chunks query topK
  = Returns (best :: rest) ->
  score best = Some v ->
  exists scored,
    scoreChunks toLowerCase regExpMatchCount
      (queryWords toLowerCase query) chunks = Returns scored
    /\ map base scored = chunks
    /\ In best scored
    /\ 0 < v
    /\ Forall (fun e => exists v', score e = Some v' /\ v' <= v) scored.
Proof.
  intros H Hv.
  destruct (findRelevantChunks_candidates _ _ _ _ _ H) as (cands & Hcand & E).
  pose proof (candidates_sorted _ _ _ _ Hcand) as Hsorted.
  destruct (slice_prefix (sort compareScore cands) topK) as [n Hn].
  rewrite Hn in E.
  destruct (sort compareScore cands) as [|e sorted'] eqn:Es.
  { rewrite firstn_nil in E. discriminate. }
  destruct n as [|n]; [discriminate|]. simpl in E. injection E as <- _.
  assert (Hbest : In best cands).
  { apply (sort_In compareScore). rewrite Es. now left. }
  unfold candidates in Hcand.
  destruct ((len chunks =? 0) || (len query =? 0)).
  { injection Hcand as <-. destruct Hbest. }
  destruct (len (queryWords toLowerCase query) =? 0).
  { injection Hcand as <-. apply in_map_iff in Hbest as (c & <- & _).
    discriminate. }
  destruct (scoreChunks _ _ _ _) as [scored| |] eqn:Hs; try discriminate.
  injection Hcand as <-.
  destruct (scoreChunks_shape _ _ _ _ Hs) as [Hbase Hsome].
  destruct (selectCandidates_cases scored chunks) as [[Ec _]|[Ec _]];
    rewrite Ec in *.
  2:{ apply in_map_iff in Hbest as (c & <- & _). discriminate. }
  apply filter_In in Hbest as [Hin Hpos].
  unfold hasPositiveScore in Hpos. rewrite Hv in Hpos.
  apply Z.gtb_lt in Hpos.
  exists scored. repeat split; auto.
  apply Forall_forall. intros e He.
  rewrite Forall_forall in Hsome. destruct (Hsome e He) as [v' Hv'].
  exists v'. split; [exact Hv'|].
  destruct (Z.le_gt_cases v' 0) as [|Hgt]; [lia|].
  assert (Hc : In e (best :: sorted')).
  { rewrite <- Es. apply sort_In. apply filter_In. split; [exact He|].
    unfold hasPositiveScore. rewrite Hv'. now apply Z.gtb_lt. }
  destruct Hc as [<-|Hc].
  - rewrite Hv in Hv'. injection Hv' as <-. lia.
  - apply StronglySorted_inv in Hsorted as [_ Hall].
    rewrite Forall_forall in Hall. specialize (Hall e Hc).
    unfold scoreGe in Hall. now rewrite Hv, Hv' in Hall.
Qed.

Lemma findRelevantChunks_best_first_witness :
  exists scored,
    scoreChunks asciiToLowerCase (RegExp.matchCount asciiCanonicalize)
      (queryWords asciiToLowerCase (lit "What is paris Berlin"%string))
      cityChunks = Returns scored
    /\ map base scored = cityChunks
    /\ In (mkRanked (mkChunk (lit "Berlin is cold, berlin"%string) 1 0)
             (Some 2)) scored
    /\ 0 < 2
    /\ Forall (fun e => exists v', score e = Some v' /\ v' <= 2) scored.
Proof.
  apply (@findRelevantChunks_best_first asciiToLowerCase
           (RegExp.matchCount asciiCanonicalize)
           cityChunks (lit "What is paris Berlin"%string) 2
           (mkRanked (mkChunk (lit "Berlin is cold, berlin"%string) 1 0)
              (Some 2))
           [mkRanked (mkChunk (lit "Paris is great"%string) 0 0) (Some 1)]
           2).
  - vm_compute. reflexivity.
  - reflexivity.
Defined.

(** ** Query words as patterns *)

Section QueryPatterns.

Variable toLowerCase : jsstring -> jsstring.
Variable canonicalize : N -> N.

Lemma scoreChunks_plain (words : list jsstring) (chunks : list Chunk) :
  Forall plainWord words ->
  scoreChunks toLowerCase (RegExp.matchCount canonicalize) words chunks
  = Returns (map (fun c =>
                    mkRanked c
                      (Some (literalScore canonicalize words
                               (toLowerCase (content c)))))
               chunks).
Proof.
  intros H. induction chunks as [|c cs IH]; [reflexivity|].
  cbn [scoreChunks map].
  rewrite scoreContent_plainWords by assumption. now rewrite IH.
Qed.

Lemma scoreContent_parsed (words : list jsstring) (text : jsstring) :
  (forall w, In w words -> exists r, RegExp.parsePattern w = Returns r) ->
  forall acc, exists v,
    scoreContent (RegExp.matchCount canonicalize) words text acc = Returns v.
Proof.
  induction words as [|w ws IH]; intros H acc; simpl; [eauto|].
  destruct (H w (or_introl eq_refl)) as [r Hr].
  unfold RegExp.matchCount at 1. rewrite Hr.
  apply IH. intros; apply H; now right.
Qed.

Lemma scoreContent_throws (words : list jsstring) (text : jsstring) :
  (forall w, In w words -> RegExp.parsePattern w <> NotModelled) ->
  (exists w, In w words /\ RegExp.parsePattern w = ThrowsSyntaxError) ->
  forall acc,
    scoreContent (RegExp.matchCount canonicalize) words text acc
    = ThrowsSyntaxError.
Proof.
  induction words as [|w ws IH]; intros Hm (x & Hx & Ex) acc;
    [destruct Hx|].
  simpl. unfold RegExp.matchCount at 1.
  destruct (RegExp.parsePattern w) as [r| |] eqn:Ew.
  - apply IH; [intros; apply Hm; now right|].
    destruct Hx as [<-|Hx]; [congruence|eauto].
  - reflexivity.
  - exfalso. apply (Hm w); [now left|exact Ew].
Qed.

Lemma patterns_parse_or_throw (words : list jsstring) :
  (forall w, In w words -> RegExp.parsePattern w <> NotModelled) ->
  (exists w, In w words /\ RegExp.parsePattern w = ThrowsSyntaxError)
  \/ (forall w, In w words -> exists r, RegExp.parsePattern w = Returns r).
Proof.
  induction words as [|w ws IH]; intros Hm.
  - right. intros w [].
  - destruct (RegExp.parsePattern w) as [r| |] eqn:Ew.
    + destruct IH as [(x & Hx & Ex)|Hall].
      * intros; apply Hm; now right.
      * left. exists x. split; [now right|exact Ex].
      * right. intros x [<-|Hx]; eauto.
    + left. exists w. split; [now left|exact Ew].
    + exfalso. apply (Hm w); [now left|exact Ew].
Qed.

Lemma scoreChunks_parsed (words : list jsstring) (chunks : list Chunk) :
  (forall w, In w words -> exists r, RegExp.parsePattern w = Returns r) ->
  exists scored,
    scoreChunks toLowerCase (RegExp.matchCount canonicalize) words chunks
    = Returns scored.
Proof.
  intros H. induction chunks as [|c cs [scored IH]]; simpl; [eauto|].
  destruct (@scoreContent_parsed words (toLowerCase (content c)) H 0)
    as [v ->].
  rewrite IH. eauto.
Qed.

End QueryPatterns.

(** X12. When no query word that survives the filter has a syntax
    character of regular expressions, [findRelevantChunks] returns and
    raises nothing, and the score of every entry that has one is positive
    and is the sum, over the query words, of the literal occurrences of
    the word in the lower-cased content. *)
Theorem findRelevantChunks_plain_query
    (toLowerCase : jsstring -> jsstring) (canonicalize : N -> N)
    (chunks : list Chunk) (query : jsstring) (topK : Z) :
  Forall plainWord (queryWords toLowerCase query) ->
  exists out,
    findRelevantChunksWith toLowerCase canonicalize chunks query topK
    = Returns out
    /\ forall e v, In e out -> score e = Some v ->
         0 < v
         /\ v = literalScore canonicalize (queryWords toLowerCase query)
                  (toLowerCase (content (base e))).
Proof.
  intros Hplain.
  assert (Hret : exists out,
             findRelevantChunksWith toLowerCase canonicalize
               chunks query topK = Returns out).
  { unfold findRelevantChunksWith, findRelevantChunks.
    destruct (_ || _); [eauto|]. destruct (_ =? 0); [eauto|].
    rewrite scoreChunks_plain by assumption. eauto. }
  destruct Hret as [out Hout]. exists out. split; [exact Hout|].
  intros e v He Hv. unfold findRelevantChunksWith in Hout.
  destruct (findRelevantChunks_candidates _ _ _ _ _ Hout)
    as (cands & Hcand & ->).
  assert (Hin : In e cands).
  { destruct (slice_prefix (sort compareScore cands) topK) as [n Hn].
    rewrite Hn in He. apply (sort_In compareScore).
    rewrite <- (firstn_skipn n). apply in_or_app. now left. }
  unfold candidates in Hcand.
  destruct (_ || _). { injection Hcand as <-. destruct Hin. }
  destruct (_ =? 0).
  { injection Hcand as <-. apply in_map_iff in Hin as (c & <- & _).
    discriminate. }
  rewrite scoreChunks_plain in Hcand by assumption.
  injection Hcand as <-.
  match goal with
  | H : In e (selectCandidates ?s chunks) |- _ =>
      destruct (selectCandidates_cases s chunks) as [[Ec _]|[Ec _]];
      rewrite Ec in H
  end.
  - apply filter_In in Hin as [Hin Hpos].
    apply in_map_iff in Hin as (c & <- & _).
    cbn [score base] in *. injection Hv as <-.
    unfold hasPositiveScore in Hpos. cbn [score] in Hpos.
    apply Z.gtb_lt in Hpos. now split.
  - apply in_map_iff in Hin as (c & <- & _). discriminate.
Qed.

Lemma findRelevantChunks_plain_query_witness :
  exists out,
    findRelevantChunksWith asciiToLowerCase asciiCanonicalize
      cityChunks (lit "What is paris Berlin"%string) 2 = Returns out
    /\ forall e v, In e out -> score e = Some v ->
         0 < v
         /\ v = literalScore asciiCanonicalize
                  (queryWords asciiToLowerCase
                     (lit "What is paris Berlin"%string))
                  (asciiToLowerCase (content (base e))).
Proof.
  apply findRelevantChunks_plain_query.
  vm_compute. repeat constructor; discriminate.
Defined.

(** X13. For a chunk list, a query and a list of surviving query words
    that are not empty, and query words inside the embedded fragment of
    the pattern grammar, [findRelevantChunks] throws a SyntaxError exactly
    when one of the surviving query words is not a valid pattern. *)
Theorem findRelevantChunks_throws_iff
    (toLowerCase : jsstring -> jsstring) (canonicalize : N -> N)
    (chunks : list Chunk) (query : jsstring) (topK : Z) :
  chunks <> [] -> query <> [] ->
  queryWords toLowerCase query <> [] ->
  (forall w, In w (queryWords toLowerCase query) ->
     RegExp.parsePattern w <> NotModelled) ->
  (findRelevantChunksWith toLowerCase canonicalize chunks query topK
   = ThrowsSyntaxError
   <-> exists w, In w (queryWords toLowerCase query)
                 /\ RegExp.parsePattern w = ThrowsSyntaxError).
Proof.
  intros Hc Hq Hw Hm.
  unfold findRelevantChunksWith, findRelevantChunks.
  replace (len chunks =? 0) with false
    by (destruct chunks; [congruence|reflexivity]).
  replace (len query =? 0) with false
    by (destruct query; [congruence|reflexivity]).
  cbn [orb].
  replace (len (queryWords toLowerCase query) =? 0) with false
    by (destruct (queryWords toLowerCase query); [congruence|reflexivity]).
  split.
  - intros H. destruct (patterns_parse_or_throw _ Hm) as [Hex|Hall];
      [exact Hex|].
    destruct (@scoreChunks_parsed toLowerCase canonicalize _ chunks Hall)
      as [scored Hs].
    rewrite Hs in H. discriminate.
  - intros Hex. destruct chunks as [|c cs]; [congruence|].
    cbn [scoreChunks].
    now rewrite (@scoreContent_throws canonicalize _ _ Hm Hex).
Qed.

Lemma findRelevantChunks_throws_iff_witness :
  findRelevantChunksWith asciiToLowerCase asciiCanonicalize
    cityChunks (lit "tell me about *args"%string) 5
  = ThrowsSyntaxError
  <-> exists w,
        In w (queryWords asciiToLowerCase
                (lit "tell me about *args"%string))
        /\ RegExp.parsePattern w = ThrowsSyntaxError.
Proof.
  apply findRelevantChunks_throws_iff.
  - discriminate.
  - discriminate.
  - vm_compute. discriminate.
  - intros w Hw. vm_compute in Hw. destruct Hw as [<-|[]].
    vm_compute. discriminate.
Defined.

(** ** The content of a chunk *)

(** X14. For [chunkSize > overlap >= 0], the content of every chunk is its
    words joined by single spaces: it is not empty, it has at least one
    word, and each of its words is a non-empty run of characters that are
    not white space. *)
Theorem chunkText_content_words (fuel : nat) (text : jsstring)
    (chunkSize overlap : Z) (result : list Chunk) :
  0 <= overlap < chunkSize ->
  chunkText fuel text chunkSize overlap = Some result ->
  Forall (fun c => content c = join [SP] (chunkWords c)
                   /\ chunkWords c <> []
                   /\ Forall isWord (chunkWords c)
                   /\ Trimmed (content c))
         result.
Proof.
  intros Hp H.
  destruct (@chunkText_cases _ _ _ _ _ Hp H)
    as [[_ ->]|[(Hnb & _ & ->)|(Hnb & Hgt & ->)]].
  - constructor.
  - constructor; [|constructor]. unfold chunkWords. cbn [content].
    rewrite <- (wordsOf_eq Hnb).
    pose proof (wordsOf_length text) as Hl.
    repeat split.
    + rewrite (wordsOf_eq Hnb). unfold split. symmetry.
      apply join_split_singleSpaced;
        [apply cleanText_spacesOnly|apply cleanText_singleSpaced].
    + intros E. rewrite E in Hl. simpl in Hl. lia.
    + now apply wordsOf_words.
    + now apply cleanText_Trimmed.
    + now apply cleanText_Trimmed.
  - pose proof (wordsOf_words Hnb) as Hw.
    assert (Hlen : 0 < len (wordsOf text)) by lia.
    apply Forall_forall. intros c Hc.
    apply in_map_iff in Hc as (j & <- & Hj). apply in_seq in Hj.
    rewrite chunkWords_windowChunk by (auto; lia).
    assert (Hjn : (j < windowCount (len (wordsOf text))
                         chunkSize overlap)%nat) by lia.
    assert (Hne : window (wordsOf text) chunkSize overlap j <> []).
    { intros E.
      pose proof (@window_length (wordsOf text) chunkSize overlap Hp j
                    Hjn Hlen) as Hl.
      rewrite E in Hl. unfold len in Hl at 1. cbn [length] in Hl.
      pose proof (@window_nonempty (len (wordsOf text)) chunkSize overlap j
                    Hp ltac:(lia) Hjn).
      lia. }
    assert (Hws : Forall isWord (window (wordsOf text) chunkSize overlap j)).
    { unfold window. now apply slice_Forall. }
    cbn [windowChunk content]. repeat split; auto;
      now apply join_words_Trimmed.
Qed.

Lemma chunkText_content_words_witness :
  Forall (fun c => content c = join [SP] (chunkWords c)
                   /\ chunkWords c <> []
                   /\ Forall isWord (chunkWords c)
                   /\ Trimmed (content c))
    [mkChunk (lit "a b c"%string) 0 0; mkChunk (lit "c d e"%string) 1 0;
     mkChunk (lit "e f g"%string) 2 0].
Proof.
  apply (@chunkText_content_words 10 (lit "a b c d e f g"%string) 3 1).
  - lia.
  - vm_compute. reflexivity.
Defined.

(** ** Chunking, then ranking *)

Lemma chunkText_contents_spacesOnly (fuel : nat) (text : jsstring)
    (chunkSize overlap : Z) (result : list Chunk) :
  chunkText fuel text chunkSize overlap = Some result ->
  Forall (fun c => spacesOnly (content c)) result.
Proof.
  intros H. destruct (whiteSpaceOnly_dec text) as [Hb|Hnb].
  - rewrite chunkText_blank in H by assumption. injection H as <-.
    constructor.
  - rewrite chunkText_nonblank in H by assumption.
    destruct (len (wordsOf text) >? chunkSize).
    + destruct (windowLoop fuel (wordsOf text) chunkSize overlap 0
                  initialState) as [st'|] eqn:Hw; [|discriminate].
      injection H as <-.
      destruct (windowLoop_frame _ _ _ _ _ _ Hw)
        as (_ & _ & new & Hch & Hnew & _).
      rewrite Hch. simpl. revert Hnew. apply Forall_impl.
      intros c (a & b & ->). apply window_spacesOnly.
      now apply wordsOf_words.
    + injection H as <-. constructor; [|constructor].
      apply cleanText_spacesOnly.
Qed.

(** X15. The chunks of a text that is not blank, passed to
    [findRelevantChunks] with a query that is not empty and [topK >= 1],
    give at least one entry whenever the ranker returns; every entry is a
    chunk of the text, its index is that of a chunk of the text, its page
    number is 0, and its content has no newline. *)
Theorem chunkText_then_findRelevantChunks
    (toLowerCase : jsstring -> jsstring)
    (regExpMatchCount : jsstring -> jsstring -> Outcome Z)
    (fuel : nat) (text : jsstring) (chunkSize overlap : Z)
    (chunks : list Chunk) (query : jsstring) (topK : Z)
    (out : list RankedChunk) :
  ~ whiteSpaceOnly text -> query <> [] -> 1 <= topK ->
  chunkText fuel text chunkSize overlap = Some chunks ->
  findRelevantChunks toLowerCase regExpMatchCount chunks query topK
  = Returns out ->
  out <> []
  /\ Forall (fun e => In (base e) chunks
                      /\ 0 <= chunkIndex (base e) < len chunks
                      /\ pageNumber (base e) = 0
                      /\ ~ In LF (content (base e)))
            out.
Proof.
  intros Hnb Hq Hk Hchunks Hrank.
  assert (Hne : chunks <> []).
  { intros E. apply Hnb. now apply (chunkText_empty_iff _ _ _ _ Hchunks). }
  destruct (findRelevantChunks_candidates _ _ _ _ _ Hrank)
    as (cands & Hcand & ->).
  destruct (candidates_facts _ _ _ _ Hcand) as (Hin & _ & Hcne).
  destruct (sorted_slice_nonempty (Hcne Hne Hq) Hk) as [Hout _].
  split; [exact Hout|].
  assert (Hidx : map chunkIndex chunks
                 = map Z.of_nat (seq 0 (length chunks))
                 /\ Forall (fun c => pageNumber c = 0) chunks).
  { destruct (chunkText_final_state _ _ _ _ Hchunks)
      as (st & (_ & Hi & Hp) & [->|[c ->]]);
      [now split|now apply indexed_snoc]. }
  destruct Hidx as [Hidx Hpage].
  pose proof (chunkText_contents_spacesOnly _ _ _ _ Hchunks) as Hsp.
  apply slice_Forall, sort_Forall.
  rewrite Forall_forall in *. intros e He. specialize (Hin e He).
  split; [exact Hin|]. split; [now apply indexed_bound|].
  split; [now apply Hpage|]. now apply spacesOnly_no_LF, Hsp.
Qed.

Lemma chunkText_then_findRelevantChunks_witness :
  [mkRanked (mkChunk (lit "gamma delta epsilon"%string) 1 0) (Some 1)] <> []
  /\ Forall (fun e =>
               In (base e)
                 [mkChunk (lit "alpha beta gamma"%string) 0 0;
                  mkChunk (lit "gamma delta epsilon"%string) 1 0;
                  mkChunk (lit "epsilon zeta eta"%string) 2 0]
               /\ 0 <= chunkIndex (base e)
                  < len [mkChunk (lit "alpha beta gamma"%string) 0 0;
                         mkChunk (lit "gamma delta epsilon"%string) 1 0;
                         mkChunk (lit "epsilon zeta eta"%string) 2 0]
               /\ pageNumber (base e) = 0
               /\ ~ In LF (content (base e)))
       [mkRanked (mkChunk (lit "gamma delta epsilon"%string) 1 0) (Some 1)].
Proof.
  apply (@chunkText_then_findRelevantChunks asciiToLowerCase
           (RegExp.matchCount asciiCanonicalize)
           40 (lit "alpha beta gamma delta epsilon zeta eta"%string) 3 1
           [mkChunk (lit "alpha beta gamma"%string) 0 0;
            mkChunk (lit "gamma delta epsilon"%string) 1 0;
            mkChunk (lit "epsilon zeta eta"%string) 2 0]
           (lit "delta"%string) 1).
  - intros H. apply isBlank_true_iff in H. vm_compute in H. discriminate.
  - discriminate.
  - lia.
  - vm_compute. reflexivity.
  - vm_compute. reflexivity.
Defined.

(** ** The number of chunks *)

(** X16. For [chunkSize > overlap >= 0], a text of [W] words that is not
    blank gives one chunk when [W <= chunkSize], and otherwise [K + 1]
    chunks, [K] the ceiling of [(W - chunkSize) / (chunkSize - overlap)];
    there are never more chunks than words. *)
Theorem chunkText_chunk_count (fuel : nat) (text : jsstring)
    (chunkSize overlap : Z) (result : list Chunk) :
  0 <= overlap < chunkSize ->
  ~ whiteSpaceOnly text ->
  chunkText fuel text chunkSize overlap = Some result ->
  (len (wordsOf text) <= chunkSize -> len result = 1)
  /\ (chunkSize < len (wordsOf text) ->
      exists K,
        (chunkSize - overlap) * (K - 1) < len (wordsOf text) - chunkSize
        /\ len (wordsOf text) - chunkSize <= (chunkSize - overlap) * K
        /\ len result = K + 1)
  /\ 1 <= len result <= len (wordsOf text).
Proof.
  intros Hp Hnb H.
  pose proof (wordsOf_length text) as Hl.
  destruct (@chunkText_cases _ _ _ _ _ Hp H)
    as [[Hb _]|[(_ & Hle & ->)|(_ & Hgt & ->)]]; [contradiction| |].
  - unfold len in *. cbn [length]. repeat split; try lia.
  - assert (Er : len (map (windowChunk (wordsOf text) chunkSize overlap)
                        (seq 0 (windowCount (len (wordsOf text))
                                  chunkSize overlap)))
                 = Z.of_nat (windowCount (len (wordsOf text))
                               chunkSize overlap))
      by (unfold len; now rewrite length_map, length_seq).
    rewrite Er. clear Er.
    pose proof (@windowCount_le (len (wordsOf text)) chunkSize overlap Hp
                  ltac:(lia)) as Hc.
    split; [lia|]. split; [|unfold windowCount in *; lia].
    intros _. unfold windowCount in *.
    rewrite Z.max_l in * by lia.
    set (W := len (wordsOf text)) in *. set (d := chunkSize - overlap) in *.
    exists ((W - chunkSize + (d - 1)) / d).
    pose proof (Z.div_mod (W - chunkSize + (d - 1)) d ltac:(lia)) as Hd.
    pose proof (Z.mod_pos_bound (W - chunkSize + (d - 1)) d ltac:(lia)) as Hb.
    assert (0 <= (W - chunkSize + (d - 1)) / d) by (apply Z.div_pos; lia).
    repeat split; lia.
Qed.

Lemma chunkText_chunk_count_witness :
  (len (wordsOf (lit "a b c d e f g"%string)) <= 3 ->
   len [mkChunk (lit "a b c"%string) 0 0; mkChunk (lit "c d e"%string) 1 0;
        mkChunk (lit "e f g"%string) 2 0] = 1)
  /\ (3 < len (wordsOf (lit "a b c d e f g"%string)) ->
      exists K,
        (3 - 1) * (K - 1) < len (wordsOf (lit "a b c d e f g"%string)) - 3
        /\ len (wordsOf (lit "a b c d e f g"%string)) - 3 <= (3 - 1) * K
        /\ len [mkChunk (lit "a b c"%string) 0 0;
                mkChunk (lit "c d e"%string) 1 0;
                mkChunk (lit "e f g"%string) 2 0] = K + 1)
  /\ 1 <= len [mkChunk (lit "a b c"%string) 0 0;
               mkChunk (lit "c d e"%string) 1 0;
               mkChunk (lit "e f g"%string) 2 0]
     <= len (wordsOf (lit "a b c d e f g"%string)).
Proof.
  apply (@chunkText_chunk_count 10 (lit "a b c d e f g"%string) 3 1).
  - lia.
  - intros H. apply isBlank_true_iff in H. vm_compute in H. discriminate.
  - vm_compute. reflexivity.
Defined.

(** ** A query without a word to search for, and [topK] below 1 *)

Lemma filter_none {A : Type} (f : A -> bool) (l : list A) :
  (forall x, In x l -> f x = false) -> filter f l = [].
Proof.
  induction l as [|x t IH]; intros H; [reflexivity|].
  simpl. rewrite H by now left. apply IH. intros; apply H; now right.
Qed.

(** X17. When every word of the lower-cased query has at most two
    characters or is a stop word, [findRelevantChunks] returns
    [chunks.slice(0, topK)] as given, without scores; no regular
    expression is built, so nothing can be thrown, whatever the query
    words are. *)
Theorem findRelevantChunks_no_query_words
    (toLowerCase : jsstring -> jsstring)
    (regExpMatchCount : jsstring -> jsstring -> Outcome Z)
    (chunks : list Chunk) (query : jsstring) (topK : Z) :
  chunks <> [] -> query <> [] ->
  (forall w, In w (split isWhiteSpace (toLowerCase query)) ->
     len w <= 2 \/ In w stopWords) ->
  findRelevantChunks toLowerCase regExpMatchCount chunks query topK
  = Returns (map unscored (slice chunks 0 topK)).
Proof.
  intros Hc Hq Hw. unfold findRelevantChunks.
  replace (len chunks =? 0) with false
    by (destruct chunks; [congruence|reflexivity]).
  replace (len query =? 0) with false
    by (destruct query; [congruence|reflexivity]).
  cbn [orb]. unfold queryWords. rewrite filter_none; [reflexivity|].
  intros w Hin. destruct (Hw w Hin) as [Hlen|Hstop].
  - destruct (Z.gtb_spec (len w) 2); [lia|reflexivity].
  - apply andb_false_iff. right. apply negb_false_iff.
    unfold isStopWord. apply existsb_exists. exists w. split; [exact Hstop|].
    clear. induction w as [|c t IH]; [reflexivity|].
    simpl. now rewrite N.eqb_refl.
Qed.

Lemma findRelevantChunks_no_query_words_witness :
  findRelevantChunks asciiToLowerCase (fun _ _ => ThrowsSyntaxError)
    cityChunks (lit "What is it about"%string) 2
  = Returns (map unscored (slice cityChunks 0 2)).
Proof.
  apply findRelevantChunks_no_query_words.
  - discriminate.
  - discriminate.
  - intros w Hw. vm_compute in Hw.
    destruct Hw as [<-|[<-|[<-|[<-|[]]]]];
      [right|left|left|right]; vm_compute; try discriminate; tauto.
Defined.

(** X18. With [topK = 0] the ranker returns no entry; with a negative
    [topK] it returns the sorted candidates without their last [-topK]
    entries, as [slice(0, topK)] counts a negative bound from the end. *)
Theorem findRelevantChunks_topK_below_one
    (toLowerCase : jsstring -> jsstring)
    (regExpMatchCount : jsstring -> jsstring -> Outcome Z)
    (chunks : list Chunk) (query : jsstring) (topK : Z)
    (out : list RankedChunk) :
  topK <= 0 ->
  findRelevantChunks toLowerCase regExpMatchCount chunks query topK
  = Returns out ->
  exists cands,
    candidates toLowerCase regExpMatchCount chunks query = Returns cands
    /\ (topK = 0 -> out = [])
    /\ (topK < 0 ->
        out = firstn (Z.to_nat (len cands + topK)) (sort compareScore cands)
        /\ len out = Z.max (len cands + topK) 0).
Proof.
  intros Hk H.
  destruct (findRelevantChunks_candidates _ _ _ _ _ H) as (cands & Hcand & ->).
  exists cands. split; [exact Hcand|]. split.
  - intros ->. now rewrite slice_firstn by lia.
  - intros Hneg.
    assert (E : slice (sort compareScore cands) 0 topK
                = firstn (Z.to_nat (len cands + topK))
                    (sort compareScore cands)).
    { unfold slice, sliceIndex. rewrite sort_length.
      destruct (Z.ltb_spec topK 0); [|lia]. cbn [Z.ltb Z.compare].
      replace (Z.min 0 (Z.of_nat (length cands))) with 0 by lia.
      cbn [Z.to_nat skipn]. unfold len. f_equal. lia. }
    split; [exact E|]. rewrite E. unfold len.
    rewrite length_firstn, sort_length. lia.
Qed.

Lemma findRelevantChunks_topK_below_one_witness :
  exists cands,
    candidates asciiToLowerCase (RegExp.matchCount asciiCanonicalize)
      cityChunks (lit "What is paris Berlin"%string) = Returns cands
    /\ (-1 = 0 -> cityRanking = [])
    /\ (-1 < 0 ->
        cityRanking
        = firstn (Z.to_nat (len cands + -1)) (sort compareScore cands)
        /\ len cityRanking = Z.max (len cands + -1) 0).
Proof.
  apply (@findRelevantChunks_topK_below_one asciiToLowerCase
           (RegExp.matchCount asciiCanonicalize)
           cityChunks (lit "What is paris Berlin"%string) (-1) cityRanking).
  - lia.
  - vm_compute. reflexivity.
Defined.
